(** * Vynthen AI: request admission control and API-key rotation

    A shallow embedding of [src/lib/security/rate-limit.ts], of the key
    handling in [src/lib/security/api-keys.ts] and of [sanitizeForLogging],
    together with the properties stated about them.

    Conventions of the embedding.
    - JavaScript numbers that the code only ever uses as integers (clock
      readings, window sizes, counters, indices) are [Z]; all of the
      arithmetic involved stays far below 2^53, where IEEE doubles are
      exact.  Where the code can produce [NaN] the type is [number].
    - [Date.now()] is an explicit argument [now] (milliseconds).
    - JavaScript strings are [string]s, one [ascii] per code unit.
    - [process.env], request headers and the counter store are finite maps.
    - A promise (or a call that may throw) is an [outcome]. *)

From Stdlib Require Import ZArith List String Ascii Lia Permutation.
From stdpp Require Import base gmap strings list pretty.

Set Warnings "-register-all".
Local Open Scope string_scope.
Local Open Scope Z_scope.

(** ** JavaScript primitives used by the code *)

Module Js.

(** Numbers that may be [NaN]. *)
Inductive number : Type :=
| Num (z : Z)
| NaN.

Definition num_add (a b : number) : number :=
  match a, b with Num x, Num y => Num (x + y) | _, _ => NaN end.

Definition num_sub (a b : number) : number :=
  match a, b with Num x, Num y => Num (x - y) | _, _ => NaN end.

(** [a >= b]: any comparison with [NaN] is false. *)
Definition num_ge (a b : number) : bool :=
  match a, b with Num x, Num y => y <=? x | _, _ => false end.

(** [a % b] truncates towards zero; [x % 0] is [NaN]. *)
Definition num_rem (a b : number) : number :=
  match a, b with
  | Num x, Num y => if y =? 0 then NaN else Num (Z.rem x y)
  | _, _ => NaN
  end.

Definition Math_abs (a : number) : number :=
  match a with Num x => Num (Z.abs x) | NaN => NaN end.

Definition Math_max (a b : number) : number :=
  match a, b with Num x, Num y => Num (Z.max x y) | _, _ => NaN end.

(** [Math.floor(a / b)] on integers, [b <> 0]. *)
Definition floor_div (a b : Z) : Z := a / b.

(** [Math.ceil(a / b)] on integers, [b <> 0]. *)
Definition ceil_div (a b : Z) : Z := - ((- a) / b).

(** [ToInt32]: reduction to the signed 32-bit range. *)
Definition toInt32 (z : Z) : Z := (z + 2 ^ 31) mod 2 ^ 32 - 2 ^ 31.

(** [a << n] and [a & b] on 32-bit integers. *)
Definition shl32 (a n : Z) : Z := toInt32 (Z.shiftl (toInt32 a) (n mod 32)).
Definition and32 (a b : Z) : Z := Z.land (toInt32 a) (toInt32 b).

(** [String(n)] for an integer. *)
Definition String_ (z : Z) : string := pretty z.

Definition String_num (n : number) : string :=
  match n with Num z => String_ z | NaN => "NaN" end.

(** A string is truthy when it is not empty. *)
Definition truthy (s : string) : bool :=
  match s with EmptyString => false | String _ _ => true end.

Definition charCode (c : ascii) : Z := Z.of_N (N_of_ascii c).

Definition charCodes (s : string) : list Z :=
  map charCode (list_ascii_of_string s).

Definition isDigit (c : ascii) : bool :=
  (48 <=? charCode c) && (charCode c <=? 57).

Definition isHexDigit (c : ascii) : bool :=
  isDigit c
  || ((97 <=? charCode c) && (charCode c <=? 102))
  || ((65 <=? charCode c) && (charCode c <=? 70)).

(** White space and line terminators (the ones below code 256). *)
Definition isWhiteSpace (c : ascii) : bool :=
  let n := charCode c in
  ((9 <=? n) && (n <=? 13)) || (n =? 32) || (n =? 160).

Fixpoint trimStart (s : string) : string :=
  match s with
  | String c r => if isWhiteSpace c then trimStart r else s
  | EmptyString => EmptyString
  end.

Definition trim (s : string) : string :=
  String.rev (trimStart (String.rev (trimStart s))).

Definition lowerChar (c : ascii) : ascii :=
  let n := charCode c in
  if ((65 <=? n) && (n <=? 90))
     || ((192 <=? n) && (n <=? 222) && negb (n =? 215))
  then ascii_of_N (Z.to_N (n + 32)) else c.

Fixpoint toLowerCase (s : string) : string :=
  match s with
  | String c r => String (lowerChar c) (toLowerCase r)
  | EmptyString => EmptyString
  end.

(** [s.includes(sub)] *)
Fixpoint includes (s sub : string) : bool :=
  if String.prefix sub s then true
  else match s with
       | String _ r => includes r sub
       | EmptyString => false
       end.

(** [s.split(sep)] for a one-character separator. *)
Fixpoint split (sep : ascii) (s : string) : list string :=
  match s with
  | EmptyString => [EmptyString]
  | String c r =>
      if Ascii.eqb c sep then EmptyString :: split sep r
      else match split sep r with
           | hd :: tl => String c hd :: tl
           | [] => [String c EmptyString]
           end
  end.

(** Value of the longest prefix of decimal digits, read left to right;
    [None] when the string does not start with a digit. *)
Fixpoint digitsValue (acc : option Z) (s : string) : option Z :=
  match s with
  | String c r =>
      if isDigit c
      then digitsValue (Some (10 * default 0 acc + (charCode c - 48))) r
      else acc
  | EmptyString => acc
  end.

(** [parseInt(s, 10)]: leading white space, an optional sign, then the
    longest run of digits; [NaN] without a digit. *)
Definition parseInt (s : string) : number :=
  let s := trimStart s in
  let '(sign, body) :=
    match s with
    | String "-"%char r => (-1, r)
    | String "+"%char r => (1, r)
    | _ => (1, s)
    end in
  match digitsValue None body with
  | Some v => Num (sign * v)
  | None => NaN
  end.

Fixpoint allDigits (s : string) : bool :=
  match s with
  | String c r => isDigit c && allDigits r
  | EmptyString => true
  end.

(** [Number(s)] on the strings the code applies it to (runs of digits,
    possibly surrounded by white space); other numeric literal forms do
    not reach it. *)
Definition Number_ (s : string) : number :=
  let s := trim s in
  if allDigits s then Num (default 0 (digitsValue None s)) else NaN.

(** *** Anchored regular expressions

    A matcher maps a string to the remainders left by every way of
    matching at its start; [test] is [/^...$/.test]. *)
Definition matcher : Type := string -> list string.

Definition cls (p : ascii -> bool) : matcher := fun s =>
  match s with
  | String c r => if p c then [r] else []
  | EmptyString => []
  end.

Definition lit (c : ascii) : matcher := cls (Ascii.eqb c).

Definition cat (a b : matcher) : matcher := fun s => flat_map b (a s).

Fixpoint times (n : nat) (a : matcher) : matcher :=
  match n with
  | O => fun s => [s]
  | S n' => cat a (times n' a)
  end.

Fixpoint upto (n : nat) (a : matcher) : matcher :=
  match n with
  | O => fun s => [s]
  | S n' => fun s => (cat a (upto n' a) s ++ [s])%list
  end.

(** [a{lo,hi}] *)
Definition rep (lo hi : nat) (a : matcher) : matcher :=
  cat (times lo a) (upto (hi - lo) a).

Definition test (r : matcher) (s : string) : bool :=
  existsb (fun rest => String.eqb rest EmptyString) (r s).

(** A promise, or a call that may throw. *)
Inductive outcome (A : Type) : Type :=
| Resolved (a : A)
| Rejected (error : string).
Arguments Resolved {A} a.
Arguments Rejected {A} error.

Definition bind {A B} (m : outcome A) (k : A -> outcome B) : outcome B :=
  match m with
  | Resolved a => k a
  | Rejected e => Rejected e
  end.

(** [try { body } catch { handler }] *)
Definition try_catch {A} (body : outcome A) (handler : string -> A) : A :=
  match body with
  | Resolved a => a
  | Rejected e => handler e
  end.

(** [new Date(ms).toISOString()] *)
Definition pad (width : nat) (z : Z) : string :=
  let s := String_ z in
  String.concat "" (repeat "0" (width - String.length s)) +:+ s.

Definition toISOString (ms : Z) : string :=
  let days := ms / 86400000 in
  let rest := ms mod 86400000 in
  let z := days + 719468 in
  let era := z / 146097 in
  let doe := z - era * 146097 in
  let yoe := (doe - doe / 1460 + doe / 36524 - doe / 146096) / 365 in
  let doy := doe - (365 * yoe + yoe / 4 - yoe / 100) in
  let mp := (5 * doy + 2) / 153 in
  let d := doy - (153 * mp + 2) / 5 + 1 in
  let m := if mp <? 10 then mp + 3 else mp - 9 in
  let y := yoe + era * 400 + (if m <=? 2 then 1 else 0) in
  let year :=
    if (0 <=? y) && (y <=? 9999) then pad 4 y
    else (if y <? 0 then "-" else "+") +:+ pad 6 (Z.abs y) in
  year +:+ "-" +:+ pad 2 m +:+ "-" +:+ pad 2 d +:+ "T"
    +:+ pad 2 (rest / 3600000) +:+ ":"
    +:+ pad 2 (rest / 60000 mod 60) +:+ ":"
    +:+ pad 2 (rest / 1000 mod 60) +:+ "."
    +:+ pad 3 (rest mod 1000) +:+ "Z".

(** [new Date(ms).toISOString()]: a time value more than 8.64e15 ms away
    from the epoch makes an invalid date, on which [toISOString] throws a
    [RangeError]. *)
Definition maxTimeValue : Z := 8640000000000000.

Definition Date_toISOString (ms : Z) : outcome string :=
  if Z.abs ms <=? maxTimeValue then Resolved (toISOString ms)
  else Rejected "RangeError: Invalid time value".

(** The JSON texts a response body is written as, and what
    [JSON.stringify] writes for a number: [NaN] becomes [null]. *)
Inductive json : Type :=
| JNull
| JBool (b : bool)
| JNumber (z : Z)
| JString (s : string)
| JObject (members : list (string * json)).

Definition jsonOfNumber (n : number) : json :=
  match n with
  | Num z => JNumber z
  | NaN => JNull
  end.

End Js.

Import Js.

#[global] Instance outcome_bind : MBind outcome :=
  fun A B k m => Js.bind m k.

(** ** [src/lib/security/rate-limit.ts] *)

Module RateLimit.

Record RateLimitConfig : Type := {
  windowMs : Z;
  maxRequests : Z;
}.

Definition AUTH := {| windowMs := 15 * 60 * 1000; maxRequests := 5 |}.
Definition AI := {| windowMs := 60 * 1000; maxRequests := 20 |}.
Definition CHAT := {| windowMs := 60 * 1000; maxRequests := 30 |}.
Definition IMAGE_GENERATION := {| windowMs := 60 * 1000; maxRequests := 5 |}.
Definition READ := {| windowMs := 60 * 1000; maxRequests := 60 |}.
Definition WRITE := {| windowMs := 60 * 1000; maxRequests := 30 |}.
Definition PUBLIC := {| windowMs := 60 * 1000; maxRequests := 100 |}.

Record RateLimitResult : Type := {
  allowed : bool;
  remaining : number;
  resetTime : Z;
  retryAfter : Z;
}.

(** The [KVNamespace] binding: [get] and [put] with an [expirationTtl]
    in seconds.  Both read the store's clock, and both may reject. *)
Class KVNamespace (KV : Type) : Type := {
  kv_get : KV -> Z -> string -> outcome (option string);
  kv_put : KV -> Z -> string -> string -> Z -> outcome KV;
}.

(** *** Stateless check *)

(** The loop over [windowKey.charCodeAt(i)]. *)
Definition hashStep (hash char : Z) : Z :=
  let hash := (shl32 hash 5 - hash) + char in
  and32 hash hash.

Definition hashString (windowKey : string) : Z :=
  fold_left hashStep (charCodes windowKey) 0.

Definition statelessRateCheck (clientKey : string) (config : RateLimitConfig)
    (now : Z) : RateLimitResult :=
  let windowStart := floor_div now (windowMs config) * windowMs config in
  let resetTime := windowStart + windowMs config in
  let windowKey := clientKey +:+ ":" +:+ String_ windowStart in
  let hash := hashString windowKey in
  let requestSlot := Math_abs (num_rem (Num hash) (Num (maxRequests config))) in
  let remaining :=
    Math_max (Num 0)
      (num_sub (num_sub (Num (maxRequests config)) requestSlot) (Num 1)) in
  {| allowed := true;
     remaining := remaining;
     resetTime := resetTime;
     retryAfter := 0 |}.

(** *** Client address *)

(** [/^(\d{1,3}\.){3}\d{1,3}$/] *)
Definition ipv4Pattern : string -> bool :=
  test (cat (times 3 (cat (rep 1 3 (cls isDigit)) (lit ".")))
            (rep 1 3 (cls isDigit))).

(** [/^([0-9a-fA-F]{1,4}:){7}[0-9a-fA-F]{1,4}$/] *)
Definition ipv6Pattern : string -> bool :=
  test (cat (times 7 (cat (rep 1 4 (cls isHexDigit)) (lit ":")))
            (rep 1 4 (cls isHexDigit))).

Definition isValidIP (ip : string) : bool :=
  if ipv4Pattern ip then
    let octets := map Number_ (split "." ip) in
    forallb (fun octet => num_ge octet (Num 0) && num_ge (Num 255) octet)
            octets
  else ipv6Pattern ip.

(** A header value ([null] when absent) used as a condition. *)
Definition present (h : option string) : bool :=
  match h with Some v => truthy v | None => false end.

(** Request headers, keyed by lower-case name. *)
Definition getClientIP (headers : gmap string string) : string :=
  let cfIP := headers !! "cf-connecting-ip" in
  if present cfIP && isValidIP (default "" cfIP) then default "" cfIP
  else
    let forwardedFor := headers !! "x-forwarded-for" in
    let fromForwarded :=
      if present forwardedFor then
        let ips := map trim (split "," (default "" forwardedFor)) in
        match ips with
        | clientIP :: _ => if isValidIP clientIP then Some clientIP else None
        | [] => None
        end
      else None in
    match fromForwarded with
    | Some clientIP => clientIP
    | None =>
        let realIP := headers !! "x-real-ip" in
        if present realIP && isValidIP (default "" realIP)
        then default "" realIP
        else "unknown"
    end.

Definition generateRateLimitKey (headers : gmap string string)
    (prefix : string) : string :=
  prefix +:+ ":" +:+ getClientIP headers.

(** *** Durable check *)

Section WithKV.
Context {KV : Type} `{KVNamespace KV}.

(** [countStr ? parseInt(countStr, 10) : 0] *)
Definition countOf (countStr : option string) : number :=
  match countStr with
  | Some s => if truthy s then parseInt s else Num 0
  | None => Num 0
  end.

Definition windowKeyOf (key : string) (config : RateLimitConfig)
    (now : Z) : string :=
  key +:+ ":" +:+ String_ (floor_div now (windowMs config)).

Definition checkRateLimitWithKV (kv : KV) (key : string)
    (config : RateLimitConfig) (now : Z) : RateLimitResult * KV :=
  let windowKey := windowKeyOf key config now in
  try_catch
    (countStr ← kv_get kv now windowKey;
     let count := countOf countStr in
     if num_ge count (Num (maxRequests config)) then
       let resetTime :=
         (floor_div now (windowMs config) + 1) * windowMs config in
       Resolved
         ({| allowed := false;
             remaining := Num 0;
             resetTime := resetTime;
             retryAfter := ceil_div (resetTime - now) 1000 |}, kv)
     else
       let newCount := num_add count (Num 1) in
       kv' ← kv_put kv now windowKey (String_num newCount)
               (ceil_div (windowMs config) 1000 + 1);
       let resetTime :=
         (floor_div now (windowMs config) + 1) * windowMs config in
       Resolved
         ({| allowed := true;
             remaining := num_sub (Num (maxRequests config)) newCount;
             resetTime := resetTime;
             retryAfter := 0 |}, kv'))
    (fun error =>
       ({| allowed := true;
           remaining := Num (maxRequests config - 1);
           resetTime := now + windowMs config;
           retryAfter := 0 |}, kv)).

(** [checkRateLimit]: the durable check when a store is bound, the
    stateless one otherwise. *)
Definition checkRateLimit (kv : option KV) (headers : gmap string string)
    (config : RateLimitConfig) (prefix : string) (now : Z)
    : RateLimitResult * option KV :=
  let key := generateRateLimitKey headers prefix in
  match kv with
  | Some kv =>
      let '(r, kv') := checkRateLimitWithKV kv key config now in
      (r, Some kv')
  | None => (statelessRateCheck key config now, None)
  end.

(** Requests of one identity handled one after the other, at the given
    clock readings: the read and the write of each check are done before
    the next check begins.  Checks that overlap (the [await]s of [kv.get]
    and [kv.put] let other requests run in between) are outside this
    driver. *)
Fixpoint serve (kv : KV) (key : string) (config : RateLimitConfig)
    (clock : list Z) : list RateLimitResult * KV :=
  match clock with
  | [] => ([], kv)
  | now :: clock' =>
      let '(r, kv') := checkRateLimitWithKV kv key config now in
      let '(rs, kv'') := serve kv' key config clock' in
      (r :: rs, kv'')
  end.

End WithKV.

(** The external counter store behind the binding, as the window counter
    uses it: every entry carries the time at which it expires, [put] sets
    it [expirationTtl] seconds ahead, [get] does not see an expired
    entry. *)
Definition store : Type := gmap string (string * Z).

Definition store_get (m : store) (now : Z) (k : string) : option string :=
  match m !! k with
  | Some (v, expires) => if now <? expires then Some v else None
  | None => None
  end.

Definition store_put (m : store) (now : Z) (k v : string) (ttl : Z) : store :=
  <[k := (v, now + ttl * 1000)]> m.

#[global] Instance store_kv : KVNamespace store := {|
  kv_get m now k := Resolved (store_get m now k);
  kv_put m now k v ttl := Resolved (store_put m now k v ttl);
|}.

(** Two failing bindings: one whose every operation rejects, and one that
    can be read but rejects every write. *)
Inductive unavailable : Type := Unavailable.

#[global] Instance unavailable_kv : KVNamespace unavailable := {|
  kv_get _ _ _ := Rejected "KV unavailable";
  kv_put _ _ _ _ _ := Rejected "KV unavailable";
|}.

Inductive readonly : Type := ReadOnly (m : store).

#[global] Instance readonly_kv : KVNamespace readonly := {|
  kv_get '(ReadOnly m) now k := Resolved (store_get m now k);
  kv_put _ _ _ _ _ := Rejected "KV is read-only";
|}.

End RateLimit.

Import RateLimit.

(** ** [src/lib/security/api-keys.ts] *)

Module ApiKeys.

(** [key && key.trim().length > 0 && !key.includes('placeholder')] *)
Definition usable (v : option string) : bool :=
  match v with
  | Some key =>
      truthy key
      && (0 <? Z.of_nat (String.length (trim key)))
      && negb (includes key "placeholder")
  | None => false
  end.

Definition indexedName (i : Z) : string :=
  "OPENROUTER_API_KEY_" +:+ String_ i.

(** [keys.includes(x)] *)
Definition arrayIncludes (keys : list string) (x : string) : bool :=
  existsb (String.eqb x) keys.

(** [keys.push(x)] and [keys.unshift(x)] *)
Definition push (keys : list string) (x : string) : list string :=
  (keys ++ [x])%list.
Definition unshift (keys : list string) (x : string) : list string :=
  x :: keys.

Definition loadOpenRouterKeys (env : gmap string string) : list string :=
  let keys :=
    fold_left
      (fun keys i =>
         let key := env !! indexedName i in
         if usable key then push keys (trim (default "" key)) else keys)
      (seqZ 1 10) [] in
  let singleKey := env !! "OPENROUTER_API_KEY" in
  if usable singleKey then
    if negb (arrayIncludes keys (trim (default "" singleKey)))
    then unshift keys (trim (default "" singleKey))
    else keys
  else keys.

(** [keys[index]]: [undefined] ([None]) outside the array. *)
Definition at_ (keys : list string) (index : Z) : option string :=
  if index <? 0 then None else keys !! Z.to_nat index.

Record CurrentKey : Type := {
  key : option string;
  index : Z;
}.

Definition getCurrentApiKey (env : gmap string string) (now : Z)
    : outcome CurrentKey :=
  let keys := loadOpenRouterKeys env in
  if Z.of_nat (length keys) =? 0 then
    Rejected "No OpenRouter API keys configured"
  else
    let minute := floor_div now 60000 in
    let index := Z.rem minute (Z.of_nat (length keys)) in
    Resolved {| key := at_ keys index; index := index |}.

Definition rotateKeyOnFailure (env : gmap string string) (now : Z)
    : outcome (option string) :=
  let keys := loadOpenRouterKeys env in
  if Z.of_nat (length keys) =? 0 then
    Rejected "No OpenRouter API keys configured"
  else
    let second := floor_div now 1000 in
    let index := Z.rem (second + 1) (Z.of_nat (length keys)) in
    Resolved (at_ keys index).

Record KeyRotationStatus : Type := {
  totalKeys : Z;
  currentIndex : number;
  failedCount : Z;
  lastReset : string;
}.

Definition getKeyRotationStatus (env : gmap string string) (now : Z)
    : outcome KeyRotationStatus :=
  let keys := loadOpenRouterKeys env in
  let minute := floor_div now 60000 in
  lastReset ← Date_toISOString (minute * 60000);
  Resolved
    {| totalKeys := Z.of_nat (length keys);
       currentIndex := num_rem (Num minute) (Num (Z.of_nat (length keys)));
       failedCount := 0;
       lastReset := lastReset |}.

(** *** [src/app/api/keys/route.ts]: the status response

    A response is its status code and the JSON text of its body, as
    [NextResponse.json] writes it.  The request is not read.  The line
    written to the console on the error path is left out. *)
Record JsonResponse : Type := {
  response_status : Z;
  response_body : json;
}.

Definition getKeyStatusHandler (env : gmap string string) (now : Z)
    : JsonResponse :=
  try_catch
    (status ← getKeyRotationStatus env now;
     Resolved
       {| response_status := 200;
          response_body :=
            JObject
              [("success", JBool true);
               ("status",
                JObject
                  [("totalKeys", JNumber (totalKeys status));
                   ("activeKeys",
                    JNumber (totalKeys status - failedCount status));
                   ("currentIndex",
                    jsonOfNumber (num_add (currentIndex status) (Num 1)));
                   ("lastReset", JString (lastReset status))])] |})
    (fun _ =>
       {| response_status := 500;
          response_body :=
            JObject [("error", JString "Failed to get key status")] |}).

(** *** [src/app/api/chat/route.ts]: the rotation loop of
    [handleStreamingResponse]

    [upstream i k] is the outcome of the request made at attempt [i] with
    credential [k]: whether the response is [ok], or a thrown error;
    [clock i] is what [Date.now()] returns inside the call of
    [rotateKeyOnFailure] at attempt [i].  [left] counts the iterations
    still permitted by [attempts < maxAttempts].  The result lists the
    credentials the loop has sent upstream. *)
Definition maxAttempts : nat := 5.

Fixpoint rotationLoop (env : gmap string string)
    (upstream : nat -> option string -> outcome bool) (clock : nat -> Z)
    (ok : bool) (attempts : nat) (left : nat) : list (option string) :=
  match left with
  | O => []
  | S left' =>
      if negb ok then
        match rotateKeyOnFailure env (clock attempts) with
        | Resolved apiKey =>
            match upstream attempts apiKey with
            | Resolved ok' =>
                apiKey :: rotationLoop env upstream clock ok' (S attempts) left'
            | Rejected _ => [apiKey]
            end
        | Rejected _ => []
        end
      else []
  end.

(** The credentials tried by the loop after the first request failed. *)
Definition retriedKeys (env : gmap string string)
    (upstream : nat -> option string -> outcome bool) (clock : nat -> Z)
    : list (option string) :=
  rotationLoop env upstream clock false 1 (maxAttempts - 1).

End ApiKeys.

Import ApiKeys.

(** ** [sanitizeForLogging] *)

Module Logging.

(** The values a logged record holds.  The fields of an object are its own
    enumerable properties in enumeration order. *)
Inductive value : Type :=
| VUndefined
| VNull
| VBool (b : bool)
| VNum (z : Z)
| VStr (s : string)
| VArr (items : list value)
| VObj (fields : list (string * value)).

Definition object : Type := list (string * value).

(** [typeof value === 'object' && value !== null] *)
Definition isObject (v : value) : bool :=
  match v with
  | VArr _ | VObj _ => true
  | _ => false
  end.


(** Writing an own property: overwrite in place, or add as the last
    property. *)
Fixpoint assign (obj : object) (key : string) (v : value) : object :=
  match obj with
  | [] => [(key, v)]
  | (k, w) :: rest =>
      if String.eqb k key then (k, v) :: rest else (k, w) :: assign rest key v
  end.

(** [obj[key] = v] on an object that began as the literal [{}].  Under the
    name [__proto__] the assignment reaches the accessor inherited from
    [Object.prototype]: it changes the prototype at most, which nothing
    here reads, and writes no own property.  Under every other name it
    writes an own property. *)
Definition set (obj : object) (key : string) (v : value) : object :=
  if String.eqb key "__proto__" then obj else assign obj key v.

Definition sensitiveFields : list string :=
  ["password"; "token"; "secret"; "key"; "authorization";
   "cookie"; "session"; "credential"; "api_key"; "apikey"].

(** [sensitiveFields.some(field => lowerKey.includes(field))] *)
Definition isSensitive (key : string) : bool :=
  let lowerKey := toLowerCase key in
  existsb (fun field => includes lowerKey field) sensitiveFields.

(** One iteration of the loop over the entries; [recurse] is the
    recursive call. *)
Definition sanitizeEntry (recurse : value -> object) (sanitized : object)
    (key : string) (v : value) : object :=
  if isSensitive key then set sanitized key (VStr "[REDACTED]")
  else if isObject v then set sanitized key (VObj (recurse v))
  else set sanitized key v.

(** The loop over [Object.entries(obj)]; the entries of an array are its
    items under their indices.  Nothing else is ever passed: the parameter
    is a record, and the recursive call is made on objects only. *)
Fixpoint sanitizeForLogging (obj : value) : object :=
  match obj with
  | VObj fields =>
      fold_left
        (fun sanitized entry =>
           sanitizeEntry sanitizeForLogging sanitized (fst entry) (snd entry))
        fields []
  | VArr items =>
      fst (fold_left
             (fun '(sanitized, i) v =>
                (sanitizeEntry sanitizeForLogging sanitized (String_ i) v,
                 i + 1))
             items ([], 0))
  | _ => []
  end.

End Logging.

Import Logging.

(** ** Definitions that follow the wording of the specification *)

Module Spec.

(** The polynomial rolling hash over the characters of a string, base 31,
    with 32-bit wrap-around. *)
Definition polyHash32 (s : string) : Z :=
  fold_left (fun h c => toInt32 (31 * h + c)) (charCodes s) 0.

(** [windowStart = floor(now / windowMs) * windowMs] *)
Definition windowStart (config : RateLimitConfig) (now : Z) : Z :=
  now / windowMs config * windowMs config.

(** The estimate the stateless strategy reports. *)
Definition statelessRemaining (clientKey : string) (config : RateLimitConfig)
    (now : Z) : Z :=
  let hash := polyHash32 (clientKey +:+ ":" +:+ String_ (windowStart config now)) in
  Z.max 0 (maxRequests config - Z.abs hash mod maxRequests config - 1).

(** Decimal and hexadecimal digits, and the value of a decimal numeral. *)
Definition isDecimal (c : ascii) : bool :=
  existsb (Ascii.eqb c) (list_ascii_of_string "0123456789").

Definition isHexadecimal (c : ascii) : bool :=
  existsb (Ascii.eqb c) (list_ascii_of_string "0123456789abcdefABCDEF").

Definition decimalValue (s : string) : Z :=
  fold_left (fun acc c => 10 * acc + (charCode c - 48))
            (list_ascii_of_string s) 0.

(** A part of a dotted quad: one to three decimal digits with a value of
    at most 255.  A group of an IPv6 address: one to four hexadecimal
    digits. *)
Definition isOctet (part : string) : bool :=
  forallb isDecimal (list_ascii_of_string part)
  && (1 <=? String.length part)%nat
  && (String.length part <=? 3)%nat
  && (decimalValue part <=? 255).

Definition isHextet (part : string) : bool :=
  forallb isHexadecimal (list_ascii_of_string part)
  && (1 <=? String.length part)%nat
  && (String.length part <=? 4)%nat.

(** Four parts separated by dots; eight groups separated by colons. *)
Definition isDottedQuad (ip : string) : bool :=
  (length (split "." ip) =? 4)%nat && forallb isOctet (split "." ip).

Definition isFullIPv6 (ip : string) : bool :=
  (length (split ":" ip) =? 8)%nat && forallb isHextet (split ":" ip).

(** The literals that count as valid: a dotted quad, or an IPv6 address
    written in full. *)
Definition acceptedLiteral (ip : string) : bool :=
  isDottedQuad ip || isFullIPv6 ip.

(** An IPv6 address with one [::] standing for one or more groups of
    zeros (RFC 4291, section 2.2, form 2): the groups on the two sides of
    the [::] are at most seven together.  [cuts ip] lists the ways of
    writing [ip] as [l ++ "::" ++ r]. *)
Fixpoint cuts (ip : string) : list (string * string) :=
  match ip with
  | String c r =>
      ((if Ascii.eqb c ":" then
          match r with
          | String d r' => if Ascii.eqb d ":" then [(EmptyString, r')] else []
          | EmptyString => []
          end
        else [])
       ++ map (fun cut => (String c (fst cut), snd cut)) (cuts r))%list
  | EmptyString => []
  end.

Definition groupCount (side : string) : option nat :=
  if String.eqb side EmptyString then Some 0%nat
  else if forallb isHextet (split ":" side)
       then Some (length (split ":" side))
       else None.

Definition isCompressedIPv6 (ip : string) : bool :=
  existsb
    (fun cut =>
       match groupCount (fst cut), groupCount (snd cut) with
       | Some l, Some r => (l + r <=? 7)%nat
       | _, _ => false
       end)
    (cuts ip).

(** The syntactically valid IP literals: IPv4 in dotted-quad form, IPv6
    in full or in compressed form. *)
Definition isIPLiteral (ip : string) : bool :=
  isDottedQuad ip || isFullIPv6 ip || isCompressedIPv6 ip.

(** Client address: the first of the edge header, the first entry of
    the forwarded-for header and the real-IP header that holds a valid
    literal, else ["unknown"]. *)
Definition validBy (valid : string -> bool) (h : option string)
    : option string :=
  match h with
  | Some ip => if valid ip then Some ip else None
  | None => None
  end.

Definition firstForwarded (forwardedFor : string) : string :=
  trim (hd "" (split "," forwardedFor)).

Definition firstValid (valid : string -> bool) (headers : gmap string string)
    : string :=
  match validBy valid (headers !! "cf-connecting-ip") with
  | Some ip => ip
  | None =>
      match validBy valid (firstForwarded <$> headers !! "x-forwarded-for") with
      | Some ip => ip
      | None =>
          match validBy valid (headers !! "x-real-ip") with
          | Some ip => ip
          | None => "unknown"
          end
      end
  end.

(** The precedence with the literals the code takes as valid, and with
    every syntactically valid literal. *)
Definition clientIP (headers : gmap string string) : string :=
  firstValid acceptedLiteral headers.

Definition clientIPOfLiterals (headers : gmap string string) : string :=
  firstValid isIPLiteral headers.

(** The index [currentKey] returns in each of the given clock readings. *)
Definition visited (env : gmap string string) (clock : list Z) : list Z :=
  omap (fun now =>
          match getCurrentApiKey env now with
          | Resolved k => Some (index k)
          | Rejected _ => None
          end) clock.

(** The key under which the counter of window [w] is stored. *)
Definition counterKey (key : string) (w : Z) : string :=
  key +:+ ":" +:+ String_ w.

(** The answer to the [k]-th request of window [w] while within quota,
    and the answer to a request at [now] once the quota is used up. *)
Definition granted (config : RateLimitConfig) (w k : Z) : RateLimitResult :=
  {| allowed := true;
     remaining := Num (maxRequests config - k);
     resetTime := (w + 1) * windowMs config;
     retryAfter := 0 |}.

Definition denied (config : RateLimitConfig) (w now : Z) : RateLimitResult :=
  {| allowed := false;
     remaining := Num 0;
     resetTime := (w + 1) * windowMs config;
     retryAfter := ceil_div ((w + 1) * windowMs config - now) 1000 |}.

(** The store holds count [j] for window [w], not expiring before the
    window ends. *)
Definition counted (key : string) (config : RateLimitConfig) (w : Z)
    (m : store) (j : Z) : Prop :=
  (j = 0 /\ m !! counterKey key w = None)
  \/ (0 < j
      /\ exists expires,
           m !! counterKey key w = Some (String_ j, expires)
           /\ (w + 1) * windowMs config <= expires).

(** A minute of requests, one per second, from 2023-11-14T22:13:00Z. *)
Definition oneMinute : list Z :=
  (fun i => 1699999980000 + 1000 * i) <$> seqZ 0 31.

(** The sensitive terms. *)
Definition sensitiveTerms : list string :=
  ["password"; "token"; "secret"; "key"; "authorization";
   "cookie"; "session"; "credential"].

(** The lower-cased name contains one of the sensitive terms. *)
Definition namesSensitiveTerm (name : string) : bool :=
  existsb (includes (toLowerCase name)) sensitiveTerms.

(** The logged copy of a record: a field with a sensitive name holds the
    marker; a field holding an object holds the logged copy of that
    object; a field holding an array holds the record of the items under
    their indices, each of them logged likewise; every other field keeps
    its value. *)
Section Logged.

Variable logged : value -> object.




End Logged.



(** The credential configured under a variable: its trimmed value when
    the variable is set, not blank and not a placeholder. *)
Definition credentialAt (env : gmap string string) (name : string)
    : option string :=
  if usable (env !! name) then Some (trim (default "" (env !! name)))
  else None.

(** The indexed credentials, in ascending index order. *)
Definition indexedCredentials (env : gmap string string) : list string :=
  omap (fun i => credentialAt env (indexedName i)) (seqZ 1 10).

(** A configuration that repeats credentials. *)
Definition repeatedKeys : gmap string string :=
  {[ "OPENROUTER_API_KEY" := "sk-or-v1-bbbbbbbbbbbbbbbb";
     "OPENROUTER_API_KEY_1" := "sk-or-v1-aaaaaaaaaaaaaaaa";
     "OPENROUTER_API_KEY_2" := "sk-or-v1-bbbbbbbbbbbbbbbb";
     "OPENROUTER_API_KEY_3" := "sk-or-v1-aaaaaaaaaaaaaaaa" ]}.

(** Two small credential pools of the same size. *)
Definition twoKeys : gmap string string :=
  {[ "OPENROUTER_API_KEY_1" := "sk-or-v1-aaaaaaaaaaaaaaaa";
     "OPENROUTER_API_KEY_2" := "sk-or-v1-bbbbbbbbbbbbbbbb" ]}.

Definition otherTwoKeys : gmap string string :=
  {[ "OPENROUTER_API_KEY" := "sk-or-v1-cccccccccccccccc";
     "OPENROUTER_API_KEY_7" := "sk-or-v1-dddddddddddddddd" ]}.

End Spec.

Import Spec.

(** ** More of the code: string helpers, validation, key format, middleware *)

Module Text.

(** Every character of the string satisfies [p]. *)
Fixpoint allChars (p : ascii -> bool) (s : string) : bool :=
  match s with
  | String c r => p c && allChars p r
  | EmptyString => true
  end.

(** [str.replace(/[class]/g, '')] *)
Fixpoint removeChars (class : ascii -> bool) (str : string) : string :=
  match str with
  | String c r =>
      if class c then removeChars class r else String c (removeChars class r)
  | EmptyString => EmptyString
  end.

(** [str.replace(/[class]/g, char => f(char))] *)
Fixpoint replaceChars (class : ascii -> bool) (f : ascii -> string)
    (str : string) : string :=
  match str with
  | String c r =>
      (if class c then f c else String c EmptyString)
        +:+ replaceChars class f r
  | EmptyString => EmptyString
  end.

(** [s.startsWith(prefix)] *)
Definition startsWith (s prefix : string) : bool := String.prefix prefix s.

End Text.

Import Text.

(** *** [src/lib/security/validation.ts]: [sanitizeString], [escapeHtml] *)

Module Validation.

(** [/\0/g] *)
Definition isNul (c : ascii) : bool := charCode c =? 0.

(** [/[\x00-\x08\x0B\x0C\x0E-\x1F\x7F]/g] *)
Definition isControl (c : ascii) : bool :=
  let n := charCode c in
  ((0 <=? n) && (n <=? 8)) || (n =? 11) || (n =? 12)
  || ((14 <=? n) && (n <=? 31)) || (n =? 127).

Definition sanitizeString (str : string) : string :=
  trim (removeChars isControl (removeChars isNul str)).

(** The table [htmlEntities]. *)
Definition htmlEntities (char : ascii) : option string :=
  if Ascii.eqb char "&" then Some "&amp;"
  else if Ascii.eqb char "<" then Some "&lt;"
  else if Ascii.eqb char ">" then Some "&gt;"
  else if Ascii.eqb char "034" then Some "&quot;"
  else if Ascii.eqb char "'" then Some "&#x27;"
  else if Ascii.eqb char "/" then Some "&#x2F;"
  else None.

(** The character class of the pattern: ampersand, angle brackets, double
    quote, single quote, slash. *)
Definition isHtmlSpecial (c : ascii) : bool :=
  Ascii.eqb c "&" || Ascii.eqb c "<" || Ascii.eqb c ">"
  || Ascii.eqb c "034" || Ascii.eqb c "'" || Ascii.eqb c "/".

(** [htmlEntities[char] || char] *)
Definition entityOrChar (char : ascii) : string :=
  match htmlEntities char with
  | Some entity => if truthy entity then entity else String char EmptyString
  | None => String char EmptyString
  end.

Definition escapeHtml (str : string) : string :=
  replaceChars isHtmlSpecial entityOrChar str.

End Validation.

Import Validation.

(** *** [src/lib/security/api-keys.ts]: [validateKeyFormat] *)

Module KeyFormat.

(** [[a-zA-Z0-9_-]] *)
Definition isKeyChar (c : ascii) : bool :=
  let n := charCode c in
  ((97 <=? n) && (n <=? 122)) || ((65 <=? n) && (n <=? 90))
  || isDigit c || (n =? 95) || (n =? 45).

Definition validateKeyFormat (key : string) : bool :=
  if negb (truthy key) then false
  else if startsWith key "sk-or-" then
    (20 <=? Z.of_nat (String.length key))
    && (Z.of_nat (String.length key) <=? 100)
  else test (rep 20 100 (cls isKeyChar)) key.

End KeyFormat.

Import KeyFormat.

(** *** [src/lib/security/rate-limit.ts]: [withRateLimit] *)

Module Middleware.

(** A response: status, headers keyed by lower-case name, body. *)
Record NextResponse (B : Type) : Type := {
  status : Z;
  headers : gmap string string;
  body : B;
}.
Arguments status {B} _.
Arguments headers {B} _.
Arguments body {B} _.

(** The body of the wrapped route: the rejection written by the
    middleware, or what the handler answered. *)
Inductive payload (B : Type) : Type :=
| TooManyRequests (error : string) (retryAfter : Z)
| Handled (b : B).
Arguments TooManyRequests {B} error retryAfter.
Arguments Handled {B} b.

(** [response.headers.set(name, value)] *)
Definition setHeader {B : Type} (response : NextResponse B)
    (name value : string) : NextResponse B :=
  {| status := status response;
     headers := <[name := value]> (headers response);
     body := body response |}.

Section WithHandler.
Context {KV : Type} `{KVNamespace KV}.
Context {HS B : Type}.

(** The route handler: it answers a request and may change the state
    [HS] it works on; [req] is the request's headers.  A handler that
    throws is outside this model. *)
Variable handler : HS -> gmap string string -> NextResponse B * HS.

Definition withRateLimit (config : RateLimitConfig) (prefix : string)
    (kv : option KV) (hs : HS) (req : gmap string string) (now : Z)
    : NextResponse (payload B) * HS * option KV :=
  let '(result, kv') := checkRateLimit kv req config prefix now in
  if negb (allowed result) then
    ({| status := 429;
         headers :=
           {[ "content-type" := "application/json";
              "retry-after" := String_ (retryAfter result);
              "x-ratelimit-limit" := String_ (maxRequests config);
              "x-ratelimit-remaining" := "0";
              "x-ratelimit-reset" :=
                String_ (ceil_div (resetTime result) 1000) ]};
         body :=
           TooManyRequests "Too many requests. Please try again later."
             (retryAfter result) |},
     hs, kv')
  else
    let '(response, hs') := handler hs req in
    let response :=
      {| status := status response;
         headers := headers response;
         body := Handled (body response) |} in
    let response :=
      setHeader response "x-ratelimit-limit" (String_ (maxRequests config)) in
    let response :=
      setHeader response "x-ratelimit-remaining"
        (String_num (remaining result)) in
    let response :=
      setHeader response "x-ratelimit-reset"
        (String_ (ceil_div (resetTime result) 1000)) in
    (response, hs', kv').

(** The wrapped route answering the same request at each clock reading,
    one call after the other. *)
Fixpoint handleAll (config : RateLimitConfig) (prefix : string)
    (kv : option KV) (hs : HS) (req : gmap string string) (clock : list Z)
    : list (NextResponse (payload B)) * HS * option KV :=
  match clock with
  | [] => ([], hs, kv)
  | now :: clock' =>
      let '(response, hs', kv') := withRateLimit config prefix kv hs req now in
      let '(responses, hs'', kv'') :=
        handleAll config prefix kv' hs' req clock' in
      (response :: responses, hs'', kv'')
  end.

(** The bare handler answering the same request [n] times. *)
Fixpoint handlerRuns (hs : HS) (req : gmap string string) (n : nat)
    : list (NextResponse B) * HS :=
  match n with
  | O => ([], hs)
  | S n' =>
      let '(response, hs') := handler hs req in
      let '(responses, hs'') := handlerRuns hs' req n' in
      (response :: responses, hs'')
  end.

End WithHandler.

(** What the middleware makes of a handler's response under a decision
    [result] that allows the request. *)
Definition passed {B : Type} (config : RateLimitConfig)
    (result : RateLimitResult) (response : NextResponse B)
    : NextResponse (payload B) :=
  {| status := status response;
     headers :=
       <["x-ratelimit-reset" := String_ (ceil_div (resetTime result) 1000)]>
         (<["x-ratelimit-remaining" := String_num (remaining result)]>
            (<["x-ratelimit-limit" := String_ (maxRequests config)]>
               (headers response)));
     body := Handled (body response) |}.

End Middleware.

Import Middleware.

(** *** Auxiliary notions used in the statements below *)

Module Props.

Definition notColon (c : ascii) : bool := negb (Ascii.eqb c ":").

(** The answer of the durable check once the stored counter does not
    parse as a number. *)
Definition unlimited (config : RateLimitConfig) (w : Z) : RateLimitResult :=
  {| allowed := true;
     remaining := NaN;
     resetTime := (w + 1) * windowMs config;
     retryAfter := 0 |}.

(** The response the middleware writes for a denial [result]. *)
Definition rejection {B : Type} (config : RateLimitConfig)
    (result : RateLimitResult) : NextResponse (payload B) :=
  {| status := 429;
     headers :=
       {[ "content-type" := "application/json";
          "retry-after" := String_ (retryAfter result);
          "x-ratelimit-limit" := String_ (maxRequests config);
          "x-ratelimit-remaining" := "0";
          "x-ratelimit-reset" := String_ (ceil_div (resetTime result) 1000) ]};
     body :=
       TooManyRequests "Too many requests. Please try again later."
         (retryAfter result) |}.

(** The wrapped route's answers to a sequence of decisions: a denial is
    answered by the middleware, anything else by the handler. *)
Fixpoint respond {HS B : Type}
    (handler : HS -> gmap string string -> NextResponse B * HS)
    (config : RateLimitConfig) (hs : HS) (req : gmap string string)
    (results : list RateLimitResult)
    : list (NextResponse (payload B)) * HS :=
  match results with
  | [] => ([], hs)
  | result :: results' =>
      if negb (allowed result) then
        let '(responses, hs') := respond handler config hs req results' in
        (rejection config result :: responses, hs')
      else
        let '(response, hs') := handler hs req in
        let '(responses, hs'') := respond handler config hs' req results' in
        (passed config result response :: responses, hs'')
  end.

(** The number of requests of a burst that fit the quota. *)
Definition withinQuota (config : RateLimitConfig) (clock : list Z) : nat :=
  Nat.min (length clock) (Z.to_nat (maxRequests config)).

(** A handler that counts its calls, a request, and a burst of seven
    requests within one second. *)
Definition countingHandler (calls : nat) (req : gmap string string)
    : NextResponse nat * nat :=
  ({| status := 200; headers := ∅; body := calls |}, S calls).

Definition sampleRequest : gmap string string :=
  {[ "cf-connecting-ip" := "1.2.3.4" ]}.

Definition sevenRequests : list Z :=
  (fun i => 1700000000000 + 100 * i) <$> seqZ 0 7.

(** Every way in which [m] matches consumes between [lo] and [hi]
    characters, all of them in the class [p]. *)
Definition consumes (m : matcher) (p : ascii -> bool) (lo hi : nat) : Prop :=
  forall s rest,
    In rest (m s) ->
    exists pre,
      s = pre +:+ rest
      /\ allChars p pre = true
      /\ (lo <= String.length pre <= hi)%nat.

Definition isIpv4Char (c : ascii) : bool := isDigit c || Ascii.eqb c ".".
Definition isIpv6Char (c : ascii) : bool := isHexDigit c || Ascii.eqb c ":".

(** The string does not start with white space. *)
Definition noLeadingSpace (s : string) : bool :=
  match s with
  | String c _ => negb (isWhiteSpace c)
  | EmptyString => true
  end.

(** The names of the variables the pool is read from. *)
Definition keyVariables : list string :=
  "OPENROUTER_API_KEY" :: (indexedName <$> seqZ 1 10).

(** What [escapeHtml] writes for one character. *)
Definition escapedChar (c : ascii) : string :=
  if isHtmlSpecial c then entityOrChar c else String c EmptyString.

(** A pool with a padded primary credential. *)
Definition paddedKeys : gmap string string :=
  {[ "OPENROUTER_API_KEY" := "  sk-or-v1-cccccccccccccccc  ";
     "OPENROUTER_API_KEY_2" := "your-placeholder-key" ]}.

(** What the code logs a field named [name] with value [v] as. *)
Definition redacted (name : string) (v : value) : value :=
  if namesSensitiveTerm name then VStr "[REDACTED]"
  else if isObject v then VObj (sanitizeForLogging v)
  else v.

(** The name is written as an own property. *)
Definition ownField (entry : string * value) : bool :=
  negb (String.eqb (fst entry) "__proto__").

(** Objects have pairwise distinct field names, at every depth. *)
Fixpoint wellFormed (v : value) : bool :=
  match v with
  | VObj fields =>
      bool_decide (NoDup (fields.*1))
      && forallb (fun entry => wellFormed (snd entry)) fields
  | VArr items => forallb wellFormed items
  | _ => true
  end.

Definition isMarker (v : value) : bool :=
  match v with
  | VStr s => String.eqb s "[REDACTED]"
  | _ => false
  end.

(** At every depth, a field with a sensitive name holds the marker. *)
Fixpoint redactedThroughout (v : value) : bool :=
  match v with
  | VObj fields =>
      forallb
        (fun entry =>
           if isSensitive (fst entry) then isMarker (snd entry)
           else redactedThroughout (snd entry))
        fields
  | VArr items => forallb redactedThroughout items
  | _ => true
  end.

(** The entries of an array from index [i] on, after sanitising. *)
Fixpoint indexedEntries (i : Z) (items : list value) : object :=
  match items with
  | [] => []
  | v :: rest =>
      (String_ i, redacted (String_ i) v) :: indexedEntries (i + 1) rest
  end.

(** A logged record with nested objects and an array. *)
Definition sampleRecord : list (string * value) :=
  [("user", VObj [("name", VStr "n"); ("Password", VStr "p")]);
   ("attempts", VArr [VObj [("sessionToken", VStr "t"); ("ok", VBool true)]]);
   ("API_KEY", VObj [("value", VStr "v")])].

(** The status response for a pool of [total] keys none of which is
    marked as failed, and the response on the error path. *)
Definition statusResponse (total : Z) (index : json) (lastReset : string)
    : JsonResponse :=
  {| response_status := 200;
     response_body :=
       JObject
         [("success", JBool true);
          ("status",
           JObject
             [("totalKeys", JNumber total);
              ("activeKeys", JNumber total);
              ("currentIndex", index);
              ("lastReset", JString lastReset)])] |}.

Definition statusFailure : JsonResponse :=
  {| response_status := 500;
     response_body := JObject [("error", JString "Failed to get key status")] |}.

(** A clock that stands still during the retries. *)
Definition frozenClock : nat -> Z := fun _ => 1700000000000.

(** Requests of several identities, handled one after the other: each
    event is an identity and the clock reading of its request. *)
Fixpoint serveMixed (kv : store) (config : RateLimitConfig)
    (events : list (string * Z)) : list (string * RateLimitResult) * store :=
  match events with
  | [] => ([], kv)
  | (key, now) :: events' =>
      let '(r, kv') := checkRateLimitWithKV kv key config now in
      let '(rs, kv'') := serveMixed kv' config events' in
      ((key, r) :: rs, kv'')
  end.

(** What belongs to one identity in a list of events or of answers. *)
Definition eventsOf {A : Type} (key : string) (events : list (string * A))
    : list A :=
  omap (fun event => if decide (fst event = key) then Some (snd event) else None)
       events.

(** [a.b.c.d] written with decimal numbers. *)
Definition dottedQuad (a b c d : Z) : string :=
  String_ a +:+ "." +:+ String_ b +:+ "." +:+ String_ c +:+ "." +:+ String_ d.

(** [parts.join(sep)], followed by the separator and [last]. *)
Fixpoint joined (sep : ascii) (parts : list string) (last : string) : string :=
  match parts with
  | [] => last
  | part :: rest => part +:+ String sep (joined sep rest last)
  end.

(** Between [lo] and [hi] characters, all of the class [p]. *)
Definition isGroup (p : ascii -> bool) (lo hi : nat) (g : string) : bool :=
  allChars p g && (lo <=? String.length g)%nat && (String.length g <=? hi)%nat.

(** [/^(p{lo,hi}sep){n}p{lo,hi}$/] *)
Definition separated (p : ascii -> bool) (lo hi : nat) (sep : ascii) (n : nat)
    : string -> bool :=
  test (cat (times n (cat (rep lo hi (cls p)) (lit sep))) (rep lo hi (cls p))).

End Props.

Import Props.

(** ** Arithmetic on 32-bit integers *)

Lemma toInt32_shift (z k : Z) : toInt32 (z + 2 ^ 32 * k) = toInt32 z.
Proof.
  unfold toInt32.
  replace (z + 2 ^ 32 * k + 2 ^ 31) with (z + 2 ^ 31 + k * 2 ^ 32) by ring.
  now rewrite Z_mod_plus_full.
Qed.

Lemma toInt32_decompose (z : Z) : exists k, toInt32 z = z + 2 ^ 32 * k.
Proof.
  exists (- ((z + 2 ^ 31) / 2 ^ 32)). unfold toInt32.
  rewrite Z.mod_eq by lia. ring.
Qed.

Lemma toInt32_idem (z : Z) : toInt32 (toInt32 z) = toInt32 z.
Proof.
  destruct (toInt32_decompose z) as [k E].
  transitivity (toInt32 (z + 2 ^ 32 * k)); [now rewrite <- E | apply toInt32_shift].
Qed.

Lemma hashStep_poly (h c : Z) : hashStep h c = toInt32 (31 * h + c).
Proof.
  unfold hashStep, and32, shl32. rewrite Z.land_diag.
  change (5 mod 32) with 5. rewrite Z.shiftl_mul_pow2 by lia.
  destruct (toInt32_decompose h) as [k1 ->].
  destruct (toInt32_decompose ((h + 2 ^ 32 * k1) * 2 ^ 5)) as [k2 ->].
  replace ((h + 2 ^ 32 * k1) * 2 ^ 5 + 2 ^ 32 * k2 - h + c)
    with (31 * h + c + 2 ^ 32 * (k1 * 2 ^ 5 + k2)) by ring.
  apply toInt32_shift.
Qed.

Lemma hashString_poly (s : string) : hashString s = polyHash32 s.
Proof.
  unfold hashString, polyHash32.
  assert (G : forall l h,
             fold_left hashStep l h
             = fold_left (fun h c => toInt32 (31 * h + c)) l h).
  { induction l as [|c l IH]; intros h; simpl.
    - reflexivity.
    - rewrite hashStep_poly. apply IH. }
  apply G.
Qed.

(** C2. The stateless check never denies: [allowed] is true and
    [retryAfter] is 0 for every client key, configuration and time; for a
    positive quota the reported [remaining] is
    [max(0, maxRequests - (|hash| mod maxRequests) - 1)] with [hash] the
    32-bit polynomial rolling hash of ["clientKey:windowStart"], and two
    calls with the same client key and the same window start report the
    same [remaining]. *)
Theorem stateless_advisory (clientKey : string) (config : RateLimitConfig)
    (now : Z) :
  allowed (statelessRateCheck clientKey config now) = true
  /\ retryAfter (statelessRateCheck clientKey config now) = 0
  /\ (0 < maxRequests config ->
      remaining (statelessRateCheck clientKey config now)
      = Num (statelessRemaining clientKey config now))
  /\ (forall now',
        windowStart config now' = windowStart config now ->
        remaining (statelessRateCheck clientKey config now')
        = remaining (statelessRateCheck clientKey config now)).
Proof.
  repeat split.
  - intros HM. unfold statelessRateCheck, statelessRemaining, windowStart,
      floor_div. cbn [remaining num_rem Math_abs num_sub Math_max].
    rewrite hashString_poly.
    destruct (Z.eqb_spec (maxRequests config) 0) as [E|_]; [lia|].
    cbn [Math_abs num_sub Math_max]. do 2 f_equal. f_equal. f_equal.
    rewrite <- Z.rem_abs by lia. rewrite (Z.abs_eq (maxRequests config)) by lia.
    apply Z.rem_mod_nonneg; lia.
  - intros now' E. unfold statelessRateCheck, windowStart, floor_div in *.
    cbn [remaining]. now rewrite E.
Qed.

Lemma stateless_advisory_witness :
  remaining (statelessRateCheck "chat:1.2.3.4" CHAT 1700000000000) = Num 18
  /\ remaining (statelessRateCheck "chat:1.2.3.4" CHAT 1700000030000) = Num 18.
Proof.
  destruct (stateless_advisory "chat:1.2.3.4" CHAT 1700000000000)
    as (_ & _ & Hrem & Hsame).
  split.
  - rewrite Hrem; [vm_compute; reflexivity | vm_compute; reflexivity].
  - rewrite (Hsame 1700000030000); [|vm_compute; reflexivity].
    rewrite Hrem; [vm_compute; reflexivity | vm_compute; reflexivity].
Defined.

(** ** Client address *)

Lemma isValidIP_nonempty (ip : string) : isValidIP ip = true -> truthy ip = true.
Proof. destruct ip; [discriminate | reflexivity]. Qed.

Lemma split_head (sep : ascii) (s : string) :
  exists h t, split sep s = h :: t.
Proof.
  destruct s as [|c r]; simpl; [eauto|].
  destruct (Ascii.eqb c sep); [eauto|]. destruct (split sep r); eauto.
Qed.

Lemma header_candidate (h : option string) :
  (if present h && isValidIP (default "" h) then Some (default "" h) else None)
  = validBy isValidIP h.
Proof.
  destruct h as [ip|]; simpl; [|reflexivity].
  destruct (isValidIP ip) eqn:Hip.
  - now rewrite (isValidIP_nonempty _ Hip).
  - now rewrite andb_false_r.
Qed.

Lemma forwarded_candidate (h : option string) :
  (if present h then
     match map trim (split "," (default "" h)) with
     | clientIP :: _ => if isValidIP clientIP then Some clientIP else None
     | [] => None
     end
   else None)
  = validBy isValidIP (firstForwarded <$> h).
Proof.
  destruct h as [ff|]; simpl; [|reflexivity].
  destruct ff as [|c r]; [vm_compute; reflexivity|].
  unfold firstForwarded. cbn [truthy].
  destruct (split_head "," (String c r)) as (h & t & ->). reflexivity.
Qed.

Lemma validBy_valid (valid : string -> bool) (h : option string)
    (ip : string) :
  validBy valid h = Some ip -> valid ip = true.
Proof.
  destruct h as [x|]; simpl; [|discriminate].
  destruct (valid x) eqn:Hx; [|discriminate]. now intros [= <-].
Qed.

Lemma validBy_ext (f g : string -> bool) (h : option string) :
  (forall ip, f ip = g ip) -> validBy f h = validBy g h.
Proof. intros E. destruct h as [ip|]; [|reflexivity]. simpl. now rewrite E. Qed.

(** The code walks the headers in the order of [firstValid], with
    [isValidIP] deciding. *)
Lemma getClientIP_chain (headers : gmap string string) :
  getClientIP headers = firstValid isValidIP headers.
Proof.
  unfold getClientIP, firstValid.
  pose proof (header_candidate (headers !! "cf-connecting-ip")) as Hcf.
  pose proof (header_candidate (headers !! "x-real-ip")) as Hre.
  rewrite forwarded_candidate.
  destruct (validBy isValidIP (headers !! "cf-connecting-ip")) as [ip|];
    destruct (present (headers !! "cf-connecting-ip")
              && isValidIP (default "" (headers !! "cf-connecting-ip")));
    try discriminate Hcf; [congruence|].
  destruct (validBy isValidIP (firstForwarded <$> headers !! "x-forwarded-for"));
    [reflexivity|].
  destruct (validBy isValidIP (headers !! "x-real-ip")) as [ip|];
    destruct (present (headers !! "x-real-ip")
              && isValidIP (default "" (headers !! "x-real-ip")));
    try discriminate Hre; congruence.
Qed.

Lemma firstValid_cases (valid : string -> bool) (headers : gmap string string) :
  firstValid valid headers = "unknown"
  \/ valid (firstValid valid headers) = true.
Proof.
  unfold firstValid.
  destruct (validBy valid (headers !! "cf-connecting-ip")) eqn:H1;
    [right; eapply validBy_valid; eassumption|].
  destruct (validBy valid (firstForwarded <$> headers !! "x-forwarded-for"))
    eqn:H2; [right; eapply validBy_valid; eassumption|].
  destruct (validBy valid (headers !! "x-real-ip")) eqn:H3;
    [right; eapply validBy_valid; eassumption|].
  now left.
Qed.

(** ** Key selection *)

Lemma getCurrentApiKey_resolved (env : gmap string string) (now : Z) :
  1 <= Z.of_nat (length (loadOpenRouterKeys env)) ->
  getCurrentApiKey env now
  = Resolved
      {| key := at_ (loadOpenRouterKeys env)
                  (Z.rem (now / 60000) (Z.of_nat (length (loadOpenRouterKeys env))));
         index := Z.rem (now / 60000) (Z.of_nat (length (loadOpenRouterKeys env))) |}.
Proof.
  intros HN. unfold getCurrentApiKey, floor_div.
  destruct (Z.eqb_spec (Z.of_nat (length (loadOpenRouterKeys env))) 0); [lia|].
  reflexivity.
Qed.

Lemma at_in_range (keys : list string) (i : Z) :
  0 <= i < Z.of_nat (length keys) -> exists k, at_ keys i = Some k.
Proof.
  intros Hi. unfold at_. destruct (Z.ltb_spec i 0); [lia|].
  destruct (lookup_lt_is_Some_2 keys (Z.to_nat i)) as [k Hk]; [lia|]. eauto.
Qed.

Lemma shift_mod_inj (b N j j' : Z) :
  0 <= j < N -> 0 <= j' < N -> (b + j) mod N = (b + j') mod N -> j = j'.
Proof.
  intros Hj Hj' E.
  pose proof (Z.div_mod (b + j) N ltac:(lia)) as D1.
  pose proof (Z.div_mod (b + j') N ltac:(lia)) as D2.
  rewrite E in D1.
  assert (j - j' = N * ((b + j) / N - (b + j') / N)) as D by lia.
  assert ((b + j) / N - (b + j') / N = 0) by nia. lia.
Qed.

Lemma shift_mod_surj (b N i : Z) :
  0 <= i < N -> (b + (i - b) mod N) mod N = i.
Proof.
  intros Hi. rewrite Zplus_mod_idemp_r.
  replace (b + (i - b)) with i by ring. apply Z.mod_small; lia.
Qed.

Lemma visited_buckets (env : gmap string string) (b : Z) (js clock : list Z) :
  1 <= Z.of_nat (length (loadOpenRouterKeys env)) ->
  0 <= b ->
  Forall (fun j => 0 <= j) js ->
  Forall2 (fun j now => now / 60000 = b + j) js clock ->
  visited env clock
  = (fun j => (b + j) mod Z.of_nat (length (loadOpenRouterKeys env))) <$> js.
Proof.
  intros HN Hb Hjs HF. induction HF as [|j now js clock Hj HF IH]; [reflexivity|].
  inversion Hjs as [|? ? Hj0 Hjs']; subst.
  unfold visited in *. cbn [omap list_omap].
  rewrite getCurrentApiKey_resolved by exact HN. cbn [index].
  rewrite IH by exact Hjs'. cbn [fmap list_fmap]. f_equal.
  rewrite Hj. apply Z.rem_mod_nonneg; lia.
Qed.

(** C3. With a pool of [N >= 1] credentials, two [currentKey] calls in the
    same 60-second bucket return the same index and credential; the index
    is [floor(now / 60000) mod N]; and over any [N] consecutive minute
    buckets every index in [[0, N)] is returned exactly once. *)
Theorem current_key_cycle (env : gmap string string) :
  1 <= Z.of_nat (length (loadOpenRouterKeys env)) ->
  (forall t1 t2,
      t1 / 60000 = t2 / 60000 ->
      getCurrentApiKey env t1 = getCurrentApiKey env t2)
  /\ (forall now,
        0 <= now ->
        exists k,
          loadOpenRouterKeys env
            !! Z.to_nat ((now / 60000) mod Z.of_nat (length (loadOpenRouterKeys env)))
          = Some k
          /\ getCurrentApiKey env now
             = Resolved
                 {| key := Some k;
                    index := (now / 60000)
                               mod Z.of_nat (length (loadOpenRouterKeys env)) |})
  /\ (forall b clock,
        0 <= b ->
        Forall2 (fun j now => now / 60000 = b + j)
                (seqZ 0 (Z.of_nat (length (loadOpenRouterKeys env)))) clock ->
        forall i,
          0 <= i < Z.of_nat (length (loadOpenRouterKeys env)) ->
          count_occ Z.eq_dec (visited env clock) i = 1%nat).
Proof.
  intros HN. set (keys := loadOpenRouterKeys env) in *.
  set (N := Z.of_nat (length keys)) in *.
  split; [|split].
  - intros t1 t2 E. unfold getCurrentApiKey, floor_div. now rewrite E.
  - intros now Hnow. rewrite getCurrentApiKey_resolved by exact HN.
    fold keys N.
    assert (0 <= now / 60000) by (apply Z.div_pos; lia).
    rewrite Z.rem_mod_nonneg by lia.
    pose proof (Z.mod_pos_bound (now / 60000) N ltac:(lia)) as Hr.
    unfold at_. destruct (Z.ltb_spec ((now / 60000) mod N) 0); [lia|].
    destruct (lookup_lt_is_Some_2 keys (Z.to_nat ((now / 60000) mod N)))
      as [k Hk]; [unfold N in *; lia|].
    exists k. rewrite Hk. split; reflexivity.
  - intros b clock Hb HF i Hi.
    rewrite (visited_buckets env b (seqZ 0 N) clock HN Hb); [|
      apply Forall_forall; intros j Hj; apply elem_of_seqZ in Hj; lia | exact HF].
    fold keys N.
    apply NoDup_count_occ'.
    + apply NoDup_ListNoDup. apply NoDup_fmap_2_strong; [|apply NoDup_seqZ].
      intros j j' Hj Hj' E. apply elem_of_seqZ in Hj, Hj'.
      eapply shift_mod_inj; [| |exact E]; lia.
    + apply list_elem_of_In. apply list_elem_of_fmap.
      exists ((i - b) mod N). split.
      * symmetry. apply shift_mod_surj; lia.
      * apply elem_of_seqZ. pose proof (Z.mod_pos_bound (i - b) N ltac:(lia)). lia.
Qed.

Lemma current_key_cycle_witness :
  getCurrentApiKey twoKeys 1700000000000 = getCurrentApiKey twoKeys 1700000019999
  /\ count_occ Z.eq_dec (visited twoKeys [1700000000000; 1700000040000]) 0 = 1%nat
  /\ count_occ Z.eq_dec (visited twoKeys [1700000000000; 1700000040000]) 1 = 1%nat.
Proof.
  assert (HN : 1 <= Z.of_nat (length (loadOpenRouterKeys twoKeys)))
    by (vm_compute; discriminate).
  destruct (current_key_cycle twoKeys HN) as (Hsame & _ & Hcycle).
  split; [apply Hsame; reflexivity|].
  assert (HF : Forall2 (fun j now => now / 60000 = 28333333 + j)
                 (seqZ 0 (Z.of_nat (length (loadOpenRouterKeys twoKeys))))
                 [1700000000000; 1700000040000])
    by (repeat constructor).
  split; apply (Hcycle 28333333 _ ltac:(lia) HF); vm_compute; split; congruence.
Defined.

(** ** The credential pool *)

Lemma indexed_loop (env : gmap string string) (l : list Z) (keys : list string) :
  fold_left
    (fun keys i =>
       let key := env !! indexedName i in
       if usable key then push keys (trim (default "" key)) else keys)
    l keys
  = (keys ++ omap (fun i => credentialAt env (indexedName i)) l)%list.
Proof.
  revert keys. induction l as [|i l IH]; intros keys; simpl.
  - now rewrite app_nil_r.
  - rewrite IH. unfold credentialAt, push.
    destruct (usable (env !! indexedName i)); [|reflexivity].
    now rewrite <- app_assoc.
Qed.

Lemma arrayIncludes_elem (keys : list string) (x : string) :
  arrayIncludes keys x = true <-> x ∈ keys.
Proof.
  unfold arrayIncludes. rewrite existsb_exists. split.
  - intros (y & Hy & E). apply String.eqb_eq in E. subst.
    now apply list_elem_of_In.
  - intros Hx. exists x. split; [now apply list_elem_of_In | apply String.eqb_refl].
Qed.

(** C4 (as the code has it). The pool is the list of indexed credentials
    in ascending index order, repetitions among them kept, with the
    primary credential put in front exactly when it is configured and does
    not already occur among the indexed ones; so the pool is free of
    repetitions whenever the indexed credentials are. *)
Theorem pool_layout (env : gmap string string) :
  loadOpenRouterKeys env
  = match credentialAt env "OPENROUTER_API_KEY" with
    | Some primary =>
        if decide (primary ∈ indexedCredentials env)
        then indexedCredentials env
        else primary :: indexedCredentials env
    | None => indexedCredentials env
    end
  /\ (NoDup (indexedCredentials env) -> NoDup (loadOpenRouterKeys env)).
Proof.
  assert (E : loadOpenRouterKeys env
              = match credentialAt env "OPENROUTER_API_KEY" with
                | Some primary =>
                    if decide (primary ∈ indexedCredentials env)
                    then indexedCredentials env
                    else primary :: indexedCredentials env
                | None => indexedCredentials env
                end).
  { unfold loadOpenRouterKeys. rewrite indexed_loop. cbn [app].
    fold (indexedCredentials env). unfold credentialAt, unshift.
    destruct (usable (env !! "OPENROUTER_API_KEY")); [|reflexivity].
    destruct (arrayIncludes (indexedCredentials env)
                (trim (default "" (env !! "OPENROUTER_API_KEY")))) eqn:Hin;
      simpl; case_decide as Hd; try reflexivity.
    - apply arrayIncludes_elem in Hin. contradiction.
    - apply arrayIncludes_elem in Hd. congruence. }
  split; [exact E|].
  intros Hnd. rewrite E.
  destruct (credentialAt env "OPENROUTER_API_KEY") as [primary|]; [|exact Hnd].
  case_decide; [exact Hnd | now constructor].
Qed.

Lemma pool_layout_witness :
  loadOpenRouterKeys otherTwoKeys
  = ["sk-or-v1-cccccccccccccccc"; "sk-or-v1-dddddddddddddddd"]
  /\ NoDup (loadOpenRouterKeys otherTwoKeys).
Proof.
  destruct (pool_layout otherTwoKeys) as (E & Hnd).
  split; [rewrite E; vm_compute; reflexivity|].
  apply Hnd. apply (bool_decide_unpack _). vm_compute. exact I.
Defined.

(** C4 (as stated) fails: with the same credential under two indexed
    variables the pool holds it twice, and a primary credential that is
    also an indexed one is not listed first. *)
Lemma pool_keeps_repetitions :
  loadOpenRouterKeys repeatedKeys
  = ["sk-or-v1-aaaaaaaaaaaaaaaa"; "sk-or-v1-bbbbbbbbbbbbbbbb";
     "sk-or-v1-aaaaaaaaaaaaaaaa"]
  /\ ~ NoDup (loadOpenRouterKeys repeatedKeys)
  /\ head (loadOpenRouterKeys repeatedKeys)
     <> repeatedKeys !! "OPENROUTER_API_KEY".
Proof.
  assert (E : loadOpenRouterKeys repeatedKeys
              = ["sk-or-v1-aaaaaaaaaaaaaaaa"; "sk-or-v1-bbbbbbbbbbbbbbbb";
                 "sk-or-v1-aaaaaaaaaaaaaaaa"]) by (vm_compute; reflexivity).
  split; [exact E|]. rewrite E. split.
  - intros Hnd. apply NoDup_cons in Hnd as [Hnotin _]. apply Hnotin. set_solver.
  - vm_compute. discriminate.
Qed.

(** C5. [rotateKeyOnFailure] picks index [(floor(now / 1000) + 1) mod N];
    this does not keep it away from the credential [currentKey] returned in
    the same second: with two credentials, at clock reading 1700000000000
    both calls return the second credential. *)
Theorem rotation_returns_failed_key :
  getCurrentApiKey twoKeys 1700000000000
  = Resolved {| key := Some "sk-or-v1-bbbbbbbbbbbbbbbb"; index := 1 |}
  /\ rotateKeyOnFailure twoKeys 1700000000000
     = Resolved (Some "sk-or-v1-bbbbbbbbbbbbbbbb")
  /\ 1700000000000 / 1000 = (1700000000000 + 999) / 1000
  /\ rotateKeyOnFailure twoKeys (1700000000000 + 999)
     = Resolved (Some "sk-or-v1-bbbbbbbbbbbbbbbb").
Proof. repeat split; vm_compute; reflexivity. Qed.

Lemma rotateKeyOnFailure_second (env : gmap string string) (t1 t2 : Z) :
  t1 / 1000 = t2 / 1000 ->
  rotateKeyOnFailure env t1 = rotateKeyOnFailure env t2.
Proof. intros E. unfold rotateKeyOnFailure, floor_div. now rewrite E. Qed.

Lemma rotationLoop_same_second (env : gmap string string)
    (upstream : nat -> option string -> outcome bool) (clock : nat -> Z)
    (second : Z) :
  forall left ok attempts k,
    (forall i, (attempts <= i < attempts + left)%nat -> clock i / 1000 = second) ->
    k ∈ rotationLoop env upstream clock ok attempts left ->
    rotateKeyOnFailure env (second * 1000) = Resolved k.
Proof.
  induction left as [|left IH]; intros ok attempts k Hclock Hk; simpl in Hk.
  - inversion Hk.
  - destruct ok; simpl in Hk; [inversion Hk|].
    destruct (rotateKeyOnFailure env (clock attempts)) as [apiKey|e] eqn:E;
      [|inversion Hk].
    assert (Hhere : rotateKeyOnFailure env (second * 1000) = Resolved apiKey).
    { rewrite <- E. apply rotateKeyOnFailure_second.
      rewrite Hclock by lia. now rewrite Z.div_mul by lia. }
    destruct (upstream attempts apiKey) as [ok'|e].
    + apply elem_of_cons in Hk as [->|Hk]; [exact Hhere|].
      eapply IH; [|exact Hk]. intros i Hi. apply Hclock. lia.
    + apply list_elem_of_singleton in Hk as ->. exact Hhere.
Qed.

Lemma rotationLoop_length (env : gmap string string)
    (upstream : nat -> option string -> outcome bool) (clock : nat -> Z) :
  forall left ok attempts,
    (length (rotationLoop env upstream clock ok attempts left) <= left)%nat.
Proof.
  induction left as [|left IH]; intros ok attempts; simpl; [lia|].
  destruct ok; simpl; [lia|].
  destruct (rotateKeyOnFailure env (clock attempts)) as [apiKey|e]; simpl; [|lia].
  destruct (upstream attempts apiKey) as [ok'|e]; simpl; [|lia].
  specialize (IH ok' (S attempts)). lia.
Qed.

(** C10. [rotateKeyOnFailure] returns the same credential at any two times
    of the same wall-clock second; hence the retry loop of the chat
    handler, which makes at most four rotations after the first attempt,
    retries with one and the same credential when all of its rotations
    fall within one second. *)
Theorem retries_within_one_second (env : gmap string string) :
  (forall t1 t2,
      t1 / 1000 = t2 / 1000 ->
      rotateKeyOnFailure env t1 = rotateKeyOnFailure env t2)
  /\ (forall upstream clock,
        (length (retriedKeys env upstream clock) <= 4)%nat
        /\ forall second,
            (forall i, (1 <= i < maxAttempts)%nat -> clock i / 1000 = second) ->
            forall k1 k2,
              k1 ∈ retriedKeys env upstream clock ->
              k2 ∈ retriedKeys env upstream clock ->
              k1 = k2).
Proof.
  split; [apply rotateKeyOnFailure_second|].
  intros upstream clock. split; [apply rotationLoop_length|].
  intros second Hclock k1 k2 H1 H2. unfold retriedKeys in *.
  assert (Hc : forall i, (1 <= i < 1 + (maxAttempts - 1))%nat ->
                         clock i / 1000 = second)
    by (intros i Hi; apply Hclock; unfold maxAttempts in *; lia).
  pose proof (rotationLoop_same_second env upstream clock second _ _ _ _ Hc H1) as E1.
  pose proof (rotationLoop_same_second env upstream clock second _ _ _ _ Hc H2) as E2.
  congruence.
Qed.

Lemma retries_within_one_second_witness :
  rotateKeyOnFailure twoKeys 1700000000000 = rotateKeyOnFailure twoKeys 1700000000999
  /\ retriedKeys twoKeys (fun _ _ => Resolved false) (fun i => 1700000000000 + 200 * Z.of_nat i)
     = replicate 4 (Some "sk-or-v1-bbbbbbbbbbbbbbbb")
  /\ forall k1 k2,
      k1 ∈ retriedKeys twoKeys (fun _ _ => Resolved false)
             (fun i => 1700000000000 + 200 * Z.of_nat i) ->
      k2 ∈ retriedKeys twoKeys (fun _ _ => Resolved false)
             (fun i => 1700000000000 + 200 * Z.of_nat i) ->
      k1 = k2.
Proof.
  destruct (retries_within_one_second twoKeys) as (Hsame & Hloop).
  split; [apply Hsame; reflexivity|].
  split; [vm_compute; reflexivity|].
  destruct (Hloop (fun _ _ => Resolved false) (fun i => 1700000000000 + 200 * Z.of_nat i))
    as (_ & Hall).
  intros k1 k2 H1 H2. apply (Hall 1700000000); [|exact H1|exact H2].
  intros i Hi. unfold maxAttempts in Hi.
  symmetry. apply Z.div_unique with (r := 200 * Z.of_nat i); lia.
Defined.

(** C6. The rotation status, and the body of the key-status response built
    from it, depend on the pool only through its size: two pools of the
    same size give the same output at the same time, whatever credentials
    they hold. *)
Theorem status_hides_credentials (env1 env2 : gmap string string) (now : Z) :
  length (loadOpenRouterKeys env1) = length (loadOpenRouterKeys env2) ->
  getKeyRotationStatus env1 now = getKeyRotationStatus env2 now
  /\ getKeyStatusHandler env1 now = getKeyStatusHandler env2 now.
Proof.
  intros E. unfold getKeyStatusHandler, getKeyRotationStatus. now rewrite E.
Qed.

Lemma status_hides_credentials_witness :
  loadOpenRouterKeys twoKeys <> loadOpenRouterKeys otherTwoKeys
  /\ getKeyRotationStatus twoKeys 1700000000000
     = getKeyRotationStatus otherTwoKeys 1700000000000
  /\ getKeyStatusHandler twoKeys 1700000000000
     = getKeyStatusHandler otherTwoKeys 1700000000000.
Proof.
  split; [vm_compute; discriminate|].
  apply (status_hides_credentials twoKeys otherTwoKeys 1700000000000).
  vm_compute. reflexivity.
Defined.

(** ** The durable strategy *)

(** C7. When the read of the counter raises, or the read succeeds and the
    write of the incremented counter raises, [checkRateLimitWithKV] returns
    [allowed = true], [remaining = maxRequests - 1] and [retryAfter = 0]:
    the error is not propagated and the request is not denied. *)
Theorem durable_fail_open {KV : Type} `{KVNamespace KV} (kv : KV) (key : string)
    (config : RateLimitConfig) (now : Z) :
  (forall e,
      kv_get kv now (windowKeyOf key config now) = Rejected e ->
      checkRateLimitWithKV kv key config now
      = ({| allowed := true;
            remaining := Num (maxRequests config - 1);
            resetTime := now + windowMs config;
            retryAfter := 0 |}, kv))
  /\ (forall countStr e,
        kv_get kv now (windowKeyOf key config now) = Resolved countStr ->
        num_ge (countOf countStr) (Num (maxRequests config)) = false ->
        kv_put kv now (windowKeyOf key config now)
          (String_num (num_add (countOf countStr) (Num 1)))
          (ceil_div (windowMs config) 1000 + 1) = Rejected e ->
        checkRateLimitWithKV kv key config now
        = ({| allowed := true;
              remaining := Num (maxRequests config - 1);
              resetTime := now + windowMs config;
              retryAfter := 0 |}, kv)).
Proof.
  split.
  - intros e Hget. unfold checkRateLimitWithKV. now rewrite Hget.
  - intros countStr e Hget Hlt Hput. unfold checkRateLimitWithKV.
    rewrite Hget. cbn [mbind outcome_bind Js.bind]. rewrite Hlt, Hput.
    reflexivity.
Qed.

Lemma durable_fail_open_witness :
  checkRateLimitWithKV Unavailable "chat:1.2.3.4" CHAT 1700000000000
  = ({| allowed := true; remaining := Num 29;
        resetTime := 1700000060000; retryAfter := 0 |}, Unavailable)
  /\ checkRateLimitWithKV (ReadOnly ∅) "chat:1.2.3.4" CHAT 1700000000000
     = ({| allowed := true; remaining := Num 29;
           resetTime := 1700000060000; retryAfter := 0 |}, ReadOnly ∅).
Proof.
  split.
  - apply (proj1 (durable_fail_open Unavailable "chat:1.2.3.4" CHAT 1700000000000)
             "KV unavailable").
    reflexivity.
  - apply (proj2 (durable_fail_open (ReadOnly ∅) "chat:1.2.3.4" CHAT 1700000000000)
             None "KV is read-only"); reflexivity.
Defined.

(** ** Redaction of logged records *)

Lemma append_cons (c : ascii) (a b : string) :
  String c a +:+ b = String c (a +:+ b).
Proof. reflexivity. Qed.

Lemma append_assoc (a b c : string) : (a +:+ b) +:+ c = a +:+ (b +:+ c).
Proof.
  induction a as [|x a IH]; [reflexivity|].
  rewrite !append_cons. now rewrite IH.
Qed.

Lemma prefix_append (sub s : string) :
  String.prefix sub s = true <-> exists b, s = sub +:+ b.
Proof.
  revert s. induction sub as [|x sub IH]; intros [|y s]; simpl.
  - split; [intros _; exists ""; reflexivity | reflexivity].
  - split; [intros _; exists (String y s); reflexivity | reflexivity].
  - split; [discriminate | intros (b & Hb); discriminate].
  - destruct (ascii_dec x y) as [->|Hne].
    + rewrite IH. split; intros (b & Hb); exists b.
      * rewrite append_cons. now rewrite Hb.
      * rewrite append_cons in Hb. now injection Hb.
    + split; [discriminate|]. intros (b & Hb).
      rewrite append_cons in Hb. injection Hb as E _. congruence.
Qed.

Lemma includes_unfold (s sub : string) :
  includes s sub
  = if String.prefix sub s then true
    else match s with
         | String _ r => includes r sub
         | EmptyString => false
         end.
Proof. destruct s; reflexivity. Qed.

Lemma includes_append (s sub : string) :
  includes s sub = true <-> exists a b, s = a +:+ sub +:+ b.
Proof.
  split.
  - induction s as [|c s IH]; rewrite includes_unfold.
    + destruct (String.prefix sub "") eqn:Hp; [|discriminate].
      intros _. apply prefix_append in Hp as (b & Hb). exists "", b. exact Hb.
    + destruct (String.prefix sub (String c s)) eqn:Hp.
      * intros _. apply prefix_append in Hp as (b & Hb). exists "", b. exact Hb.
      * intros Hi. destruct (IH Hi) as (a & b & ->).
        exists (String c a), b. reflexivity.
  - intros (a & b & ->). induction a as [|c a IH]; rewrite includes_unfold.
    + assert (Hp : String.prefix sub ("" +:+ sub +:+ b) = true)
        by (apply prefix_append; exists b; reflexivity).
      now rewrite Hp.
    + rewrite append_cons.
      destruct (String.prefix sub (String c (a +:+ sub +:+ b))); [reflexivity|].
      exact IH.
Qed.

Lemma includes_trans (s t u : string) :
  includes s t = true -> includes t u = true -> includes s u = true.
Proof.
  rewrite !includes_append. intros (a & b & ->) (a' & b' & ->).
  exists (a +:+ a'), (b' +:+ b). now rewrite !append_assoc.
Qed.

(** The two longer entries of the code's list add nothing: a name that
    contains them contains ["key"]. *)
Lemma isSensitive_terms (name : string) :
  isSensitive name = namesSensitiveTerm name.
Proof.
  unfold isSensitive, namesSensitiveTerm, sensitiveFields, sensitiveTerms.
  cbn [existsb].
  destruct (includes (toLowerCase name) "key") eqn:Hkey.
  - now rewrite !orb_true_r.
  - assert (includes (toLowerCase name) "api_key" = false) as ->.
    { destruct (includes (toLowerCase name) "api_key") eqn:H1; [|reflexivity].
      rewrite <- Hkey. symmetry. eapply includes_trans; [exact H1|reflexivity]. }
    assert (includes (toLowerCase name) "apikey" = false) as ->.
    { destruct (includes (toLowerCase name) "apikey") eqn:H1; [|reflexivity].
      rewrite <- Hkey. symmetry. eapply includes_trans; [exact H1|reflexivity]. }
    reflexivity.
Qed.

Lemma assign_fresh (obj : object) (name : string) (v : value) :
  name ∉ obj.*1 -> assign obj name v = (obj ++ [(name, v)])%list.
Proof.
  induction obj as [|[k w] obj IH]; intros Hfresh; simpl; [reflexivity|].
  rewrite fmap_cons in Hfresh. apply not_elem_of_cons in Hfresh as [Hne Hfresh].
  destruct (String.eqb_spec k name) as [->|_]; [contradiction|].
  now rewrite IH.
Qed.

Lemma set_fresh (obj : object) (name : string) (v : value) :
  ownField (name, v) = true ->
  name ∉ obj.*1 -> set obj name v = (obj ++ [(name, v)])%list.
Proof.
  unfold ownField, set. cbn [fst]. intros Hown Hfresh.
  apply negb_true_iff in Hown. rewrite Hown. now apply assign_fresh.
Qed.

Lemma set_proto (obj : object) (name : string) (v : value) :
  ownField (name, v) = false -> set obj name v = obj.
Proof.
  unfold ownField, set. cbn [fst]. intros Hown.
  apply negb_false_iff in Hown. now rewrite Hown.
Qed.

Lemma sanitizeEntry_redacted (sanitized : object) (name : string) (v : value) :
  sanitizeEntry sanitizeForLogging sanitized name v
  = set sanitized name (redacted name v).
Proof.
  unfold sanitizeEntry, redacted. rewrite isSensitive_terms.
  destruct (namesSensitiveTerm name); [reflexivity|].
  destruct (isObject v); reflexivity.
Qed.

Lemma sanitize_loop (fields : list (string * value)) (sanitized : object) :
  NoDup (sanitized.*1 ++ fields.*1) ->
  fold_left
    (fun sanitized entry =>
       sanitizeEntry sanitizeForLogging sanitized (fst entry) (snd entry))
    fields sanitized
  = (sanitized ++ map (fun entry => (fst entry, redacted (fst entry) (snd entry)))
                      (List.filter ownField fields))%list.
Proof.
  revert sanitized. induction fields as [|[k v] fields IH]; intros sanitized Hnd.
  - simpl. now rewrite app_nil_r.
  - cbn [fold_left List.filter fst snd]. rewrite sanitizeEntry_redacted.
    rewrite fmap_cons in Hnd. cbn [fst] in Hnd.
    destruct (ownField (k, v)) eqn:Hown.
    + rewrite set_fresh.
      * rewrite IH.
        -- cbn [map fst snd]. now rewrite <- app_assoc.
        -- rewrite fmap_app, <- app_assoc. exact Hnd.
      * exact Hown.
      * apply NoDup_app in Hnd as (_ & Hdisj & _). intros Hin.
        apply (Hdisj k Hin). left.
    + rewrite set_proto by exact Hown. apply IH.
      apply NoDup_app in Hnd as (H1 & Hdisj & H2).
      apply NoDup_cons in H2 as [_ H2].
      apply NoDup_app. split; [exact H1|]. split; [|exact H2].
      intros x Hx Hin. apply (Hdisj x Hx). now right.
Qed.

Lemma sanitize_object (fields : list (string * value)) :
  NoDup (fields.*1) ->
  sanitizeForLogging (VObj fields)
  = map (fun entry => (fst entry, redacted (fst entry) (snd entry)))
        (List.filter ownField fields).
Proof.
  intros Hnd.
  change (sanitizeForLogging (VObj fields))
    with (fold_left
            (fun sanitized entry =>
               sanitizeEntry sanitizeForLogging sanitized (fst entry) (snd entry))
            fields []).
  now rewrite sanitize_loop.
Qed.


(** ** Counters written and read back as decimal strings *)

Lemma pretty_N_go_append (x : N) (s : string) :
  pretty_N_go x s = pretty_N_go x "" +:+ s.
Proof.
  revert s. induction (N.lt_wf_0 x) as [x _ IH]; intros s.
  destruct (N.eq_dec x 0%N) as [->|Hx].
  - now rewrite !pretty_N_go_0.
  - assert (Hpos : (0 < x)%N) by lia.
    assert (Hlt : (x `div` 10 < x)%N) by (now apply N.div_lt).
    rewrite (pretty_N_go_step x s), (pretty_N_go_step x "") by exact Hpos.
    rewrite (IH _ Hlt (String _ s)), (IH _ Hlt (String _ "")).
    now rewrite append_assoc.
Qed.

Lemma pretty_N_char_digit (n : N) :
  (n < 10)%N ->
  isDigit (pretty_N_char n) = true
  /\ charCode (pretty_N_char n) - 48 = Z.of_N n.
Proof.
  intros Hn. destruct n as [|p]; [split; reflexivity|].
  repeat (destruct p as [p|p|]; try (split; reflexivity); try lia).
Qed.

Lemma digitsValue_snoc (s : string) (c : ascii) (acc : option Z) :
  allDigits s = true ->
  isDigit c = true ->
  allDigits (s +:+ String c "") = true
  /\ digitsValue acc (s +:+ String c "")
     = Some (10 * default 0 (digitsValue acc s) + (charCode c - 48)).
Proof.
  revert acc. induction s as [|x s IH]; intros acc Hs Hc.
  - change ("" +:+ String c "") with (String c ""). simpl. rewrite Hc. auto.
  - rewrite append_cons. simpl in Hs. apply andb_prop in Hs as [Hx Hs].
    simpl. rewrite Hx. simpl. apply IH; assumption.
Qed.

Lemma pretty_N_go_value (x : N) :
  (0 < x)%N ->
  allDigits (pretty_N_go x "") = true
  /\ digitsValue None (pretty_N_go x "") = Some (Z.of_N x).
Proof.
  induction (N.lt_wf_0 x) as [x _ IH]; intros Hx.
  rewrite pretty_N_go_step by exact Hx. rewrite pretty_N_go_append.
  destruct (pretty_N_char_digit (x `mod` 10)%N) as [Hd Hv];
    [now apply N.mod_lt|].
  pose proof (N.div_mod x 10 ltac:(discriminate)) as D.
  assert (Hlt : (x `div` 10 < x)%N) by (now apply N.div_lt).
  revert D Hlt Hd Hv.
  generalize (x `mod` 10)%N as r. generalize (x `div` 10)%N as q.
  intros q r D Hlt Hd Hv.
  destruct (N.eq_dec q 0%N) as [E|E].
  - rewrite E, pretty_N_go_0.
    change ("" +:+ String (pretty_N_char r) "") with (String (pretty_N_char r) "").
    simpl. rewrite Hd. split; [reflexivity|]. simpl. f_equal. rewrite Hv. lia.
  - destruct (IH q) as [Ha Hval]; [exact Hlt | lia |].
    destruct (digitsValue_snoc _ _ None Ha Hd) as [Hall Hsn].
    split; [exact Hall|]. rewrite Hsn, Hval, Hv. cbn [default from_option id]. f_equal. lia.
Qed.

Lemma parseInt_digits (c : ascii) (r : string) :
  isDigit c = true ->
  parseInt (String c r)
  = match digitsValue None (String c r) with
    | Some v => Num (1 * v)
    | None => NaN
    end.
Proof.
  intros Hc.
  destruct c as [[] [] [] [] [] [] [] []];
    try (vm_compute in Hc; discriminate Hc); reflexivity.
Qed.

Lemma String_positive (p : positive) :
  String_ (Z.pos p) = pretty_N_go (N.pos p) "".
Proof. reflexivity. Qed.

Lemma parseInt_String (n : Z) :
  0 <= n -> truthy (String_ n) = true /\ parseInt (String_ n) = Num n.
Proof.
  intros Hn. destruct n as [|p|p]; [split; reflexivity| |lia].
  rewrite String_positive.
  destruct (pretty_N_go_value (N.pos p)) as [Ha Hv]; [lia|].
  destruct (pretty_N_go (N.pos p) "") as [|c r] eqn:E; [discriminate Hv|].
  simpl in Ha. apply andb_prop in Ha as [Hc _].
  split; [reflexivity|].
  rewrite parseInt_digits by exact Hc. rewrite Hv. f_equal.
Qed.

Lemma String_inj (a b : Z) : String_ a = String_ b -> a = b.
Proof. apply pretty_Z_inj. Qed.

(** ** Counting requests in the store *)

Section Durable.
Variable key : string.
Variable config : RateLimitConfig.
Hypothesis window_positive : 0 < windowMs config.

Lemma window_bounds (w now : Z) :
  now / windowMs config = w ->
  w * windowMs config <= now < (w + 1) * windowMs config.
Proof.
  intros <-.
  pose proof (Z.div_mod now (windowMs config) ltac:(lia)).
  pose proof (Z.mod_pos_bound now (windowMs config) window_positive).
  nia.
Qed.

Lemma ttl_covers_window :
  windowMs config <= ceil_div (windowMs config) 1000 * 1000.
Proof.
  unfold ceil_div.
  pose proof (Z.div_mod (- windowMs config) 1000 ltac:(lia)).
  pose proof (Z.mod_pos_bound (- windowMs config) 1000 ltac:(lia)).
  lia.
Qed.

Lemma counted_read (w now j : Z) (m : store) :
  now / windowMs config = w ->
  0 <= j ->
  counted key config w m j ->
  countOf (store_get m now (counterKey key w)) = Num j.
Proof.
  intros Hw Hj [[-> Hnone]|[Hpos (expires & Hsome & Hexp)]];
    unfold store_get.
  - now rewrite Hnone.
  - rewrite Hsome. pose proof (window_bounds w now Hw).
    destruct (Z.ltb_spec now expires); [|lia].
    destruct (parseInt_String j Hj) as [Ht Hp]. cbn [countOf].
    now rewrite Ht, Hp.
Qed.

Lemma counted_put (w now j : Z) (m : store) :
  now / windowMs config = w ->
  0 <= j ->
  counted key config w
    (store_put m now (counterKey key w) (String_ (j + 1))
       (ceil_div (windowMs config) 1000 + 1))
    (j + 1).
Proof.
  intros Hw Hj. right. split; [lia|].
  exists (now + (ceil_div (windowMs config) 1000 + 1) * 1000). split.
  - unfold store_put. apply lookup_insert_eq.
  - pose proof (window_bounds w now Hw). pose proof ttl_covers_window. lia.
Qed.

Lemma check_granted (w now j : Z) (m : store) :
  now / windowMs config = w ->
  0 <= j < maxRequests config ->
  counted key config w m j ->
  checkRateLimitWithKV m key config now
  = (granted config w (j + 1),
     store_put m now (counterKey key w) (String_ (j + 1))
       (ceil_div (windowMs config) 1000 + 1)).
Proof.
  intros Hw Hj Hc.
  unfold checkRateLimitWithKV, windowKeyOf, floor_div. rewrite Hw.
  fold (counterKey key w).
  cbn [kv_get kv_put store_kv mbind outcome_bind Js.bind try_catch].
  rewrite (counted_read w now j m Hw ltac:(lia) Hc).
  cbn [num_ge num_add num_sub String_num].
  destruct (Z.leb_spec (maxRequests config) j); [lia|]. reflexivity.
Qed.

Lemma check_denied (w now : Z) (m : store) :
  now / windowMs config = w ->
  0 <= maxRequests config ->
  counted key config w m (maxRequests config) ->
  checkRateLimitWithKV m key config now = (denied config w now, m).
Proof.
  intros Hw HM Hc.
  unfold checkRateLimitWithKV, windowKeyOf, floor_div. rewrite Hw.
  fold (counterKey key w).
  cbn [kv_get kv_put store_kv mbind outcome_bind Js.bind try_catch].
  rewrite (counted_read w now _ m Hw HM Hc).
  cbn [num_ge]. destruct (Z.leb_spec (maxRequests config) (maxRequests config));
    [reflexivity | lia].
Qed.

(** Requests within quota: the [i]-th of them (from 0) is answered as
    request [j + i + 1] of the window, and only the window's counter is
    written. *)
Lemma serve_granted (w : Z) (clock : list Z) :
  forall (m : store) (j : Z),
    Forall (fun now => now / windowMs config = w) clock ->
    0 <= j ->
    j + Z.of_nat (length clock) <= maxRequests config ->
    counted key config w m j ->
    length (serve m key config clock).1 = length clock
    /\ (forall (i : nat),
          (i < length clock)%nat ->
          (serve m key config clock).1 !! i
          = Some (granted config w (j + Z.of_nat i + 1)))
    /\ counted key config w (serve m key config clock).2
         (j + Z.of_nat (length clock))
    /\ (forall k,
          k <> counterKey key w ->
          (serve m key config clock).2 !! k = m !! k).
Proof.
  induction clock as [|now clock IH]; intros m j Hclock Hj Hle Hc.
  - cbn [serve fst snd length]. rewrite Z.add_0_r.
    repeat split; [intros i Hi; inversion Hi | exact Hc].
  - apply Forall_cons in Hclock as [Hnow Hclock].
    cbn [length] in Hle. cbn [serve].
    rewrite (check_granted w now j m Hnow ltac:(lia) Hc).
    set (m1 := store_put m now (counterKey key w) (String_ (j + 1))
                 (ceil_div (windowMs config) 1000 + 1)).
    destruct (IH m1 (j + 1) Hclock ltac:(lia) ltac:(lia)
                (counted_put w now j m Hnow Hj))
      as (Hlen & Hget & Hcount & Hframe).
    destruct (serve m1 key config clock) as [rs m2].
    cbn [fst snd] in *. repeat split.
    + cbn [length]. now rewrite Hlen.
    + intros [|i] Hi; cbn [length] in Hi.
      * cbn. do 2 f_equal. lia.
      * change ((granted config w (j + 1) :: rs) !! S i)
          with (rs !! i).
        rewrite Hget by lia. do 2 f_equal. lia.
    + cbn [length]. replace (j + Z.of_nat (S (length clock)))
        with (j + 1 + Z.of_nat (length clock)) by lia. exact Hcount.
    + intros k Hk. rewrite Hframe by exact Hk. unfold m1, store_put.
      now apply lookup_insert_ne.
Qed.

Lemma serve_app (m : store) (clock1 clock2 : list Z) :
  serve m key config (clock1 ++ clock2)
  = (((serve m key config clock1).1
      ++ (serve (serve m key config clock1).2 key config clock2).1)%list,
     (serve (serve m key config clock1).2 key config clock2).2).
Proof.
  revert m. induction clock1 as [|now clock1 IH]; intros m.
  - cbn [app serve fst snd]. now destruct (serve m key config clock2).
  - cbn [app serve].
    destruct (checkRateLimitWithKV m key config now) as [r m1].
    rewrite IH. destruct (serve m1 key config clock1) as [rs m2].
    cbn [fst snd]. reflexivity.
Qed.

End Durable.

Lemma counterKey_inj (key : string) (w w' : Z) :
  counterKey key w = counterKey key w' -> w = w'.
Proof.
  unfold counterKey. intros E.
  apply String.app_inj in E. apply String.app_inj in E. now apply String_inj.
Qed.

Lemma split_last {A : Type} (l : list A) (n : nat) :
  length l = S n ->
  exists l' x, l = (l' ++ [x])%list /\ length l' = n.
Proof.
  intros Hlen. destruct (decide (l = [])) as [->|Hne]; [discriminate|].
  destruct (exists_last Hne) as (l' & x & ->).
  exists l', x. split; [reflexivity|].
  rewrite length_app in Hlen. cbn in Hlen. lia.
Qed.

(** C1. Durable strategy.  Starting from a store without a counter for the
    identity, [M + 1] requests handled one after the other in the same
    window are answered as follows: the [k]-th, for [1 <= k <= M], is
    allowed with [remaining = M - k]; the [(M+1)]-th is denied with
    [remaining = 0] and [retryAfter] the number of seconds, rounded up,
    until the next window boundary; and a request that then arrives in
    another window is allowed again. *)
Theorem durable_window_quota (key : string) (config : RateLimitConfig)
    (w : Z) (clock : list Z) (kv : store) :
  0 < windowMs config ->
  0 < maxRequests config ->
  (forall n, kv !! counterKey key n = None) ->
  length clock = Z.to_nat (maxRequests config + 1) ->
  Forall (fun now => now / windowMs config = w) clock ->
  (forall k,
      1 <= k <= maxRequests config ->
      (serve kv key config clock).1 !! Z.to_nat (k - 1)
      = Some (granted config w k))
  /\ (forall now,
        clock !! Z.to_nat (maxRequests config) = Some now ->
        (serve kv key config clock).1 !! Z.to_nat (maxRequests config)
        = Some (denied config w now))
  /\ (forall now,
        now / windowMs config <> w ->
        (checkRateLimitWithKV (serve kv key config clock).2 key config now).1
        = granted config (now / windowMs config) 1).
Proof.
  intros HW HM Hfresh Hlen Hclock.
  replace (Z.to_nat (maxRequests config + 1))
    with (S (Z.to_nat (maxRequests config))) in Hlen by lia.
  destruct (split_last clock _ Hlen) as (within & last & -> & Hwithin).
  apply Forall_app in Hclock as [Hin Hlast].
  apply Forall_cons in Hlast as [Hlast _].
  assert (Hc0 : counted key config w kv 0) by (left; auto).
  destruct (serve_granted key config HW w within kv 0 Hin ltac:(lia)
              ltac:(lia) Hc0) as (Hrs & Hget & Hcount & Hframe).
  rewrite serve_app.
  set (rs := (serve kv key config within).1) in *.
  set (m1 := (serve kv key config within).2) in *.
  replace (0 + Z.of_nat (length within)) with (maxRequests config) in Hcount
    by lia.
  cbn [serve fst snd].
  rewrite (check_denied key config HW w last m1 Hlast ltac:(lia) Hcount).
  cbn [fst snd]. split; [|split].
  - intros k Hk. rewrite lookup_app_l by lia.
    rewrite Hget by lia. do 2 f_equal. lia.
  - intros now Hnow.
    rewrite lookup_app_r in Hnow by lia.
    rewrite lookup_app_r by lia.
    replace (Z.to_nat (maxRequests config) - length within)%nat with 0%nat
      in Hnow by lia.
    replace (Z.to_nat (maxRequests config) - length rs)%nat with 0%nat by lia.
    cbn in Hnow. injection Hnow as <-. reflexivity.
  - intros now Hnow.
    assert (Hc : counted key config (now / windowMs config) m1 0).
    { left. split; [reflexivity|]. rewrite Hframe; [apply Hfresh|].
      intros E. apply counterKey_inj in E. contradiction. }
    rewrite (check_granted key config HW (now / windowMs config) now 0 m1
               eq_refl ltac:(lia) Hc).
    reflexivity.
Qed.

(** The CHAT quota: 31 requests within one minute. *)
Lemma durable_window_quota_witness :
  (serve (∅ : store) "chat:1.2.3.4" CHAT oneMinute).1 !! 0%nat
  = Some {| allowed := true; remaining := Num 29;
            resetTime := 1700000040000; retryAfter := 0 |}
  /\ (serve (∅ : store) "chat:1.2.3.4" CHAT oneMinute).1 !! 29%nat
     = Some {| allowed := true; remaining := Num 0;
               resetTime := 1700000040000; retryAfter := 0 |}
  /\ (serve (∅ : store) "chat:1.2.3.4" CHAT oneMinute).1 !! 30%nat
     = Some {| allowed := false; remaining := Num 0;
               resetTime := 1700000040000; retryAfter := 30 |}
  /\ (checkRateLimitWithKV (serve (∅ : store) "chat:1.2.3.4" CHAT oneMinute).2
        "chat:1.2.3.4" CHAT 1700000040000).1
     = {| allowed := true; remaining := Num 29;
          resetTime := 1700000100000; retryAfter := 0 |}.
Proof.
  destruct (durable_window_quota "chat:1.2.3.4" CHAT 28333333 oneMinute ∅)
    as (Hgranted & Hdenied & Hnext).
  - vm_compute. reflexivity.
  - vm_compute. reflexivity.
  - intros n. apply lookup_empty.
  - vm_compute. reflexivity.
  - apply (bool_decide_unpack _). vm_compute. exact I.
  - split; [exact (Hgranted 1 ltac:(vm_compute; split; discriminate))|].
    split; [exact (Hgranted 30 ltac:(vm_compute; split; discriminate))|].
    split.
    + exact (Hdenied 1700000010000 eq_refl).
    + apply (Hnext 1700000040000). vm_compute. discriminate.
Defined.

(** ** Further properties of the durable strategy *)

Lemma ceil_div_bounds (d W : Z) :
  0 < d <= W -> 1 <= ceil_div d 1000 <= ceil_div W 1000.
Proof.
  intros Hd. unfold ceil_div.
  pose proof (Z.div_le_mono (- W) (- d) 1000 ltac:(lia) ltac:(lia)).
  pose proof (Z.div_lt_upper_bound (- d) 1000 0 ltac:(lia) ltac:(lia)).
  lia.
Qed.

(** X1. Whatever the binding and whatever the store holds, a denial by
    the durable check leaves the store as it was, reports no remaining
    request, names the next window boundary as reset time and asks the
    client to wait at least one second and at most a whole window. *)
Theorem durable_denial_shape {KV : Type} `{KVNamespace KV} (kv : KV)
    (key : string) (config : RateLimitConfig) (now : Z) :
  0 < windowMs config ->
  allowed (checkRateLimitWithKV kv key config now).1 = false ->
  (checkRateLimitWithKV kv key config now).2 = kv
  /\ remaining (checkRateLimitWithKV kv key config now).1 = Num 0
  /\ resetTime (checkRateLimitWithKV kv key config now).1
     = (now / windowMs config + 1) * windowMs config
  /\ now < resetTime (checkRateLimitWithKV kv key config now).1
         <= now + windowMs config
  /\ 1 <= retryAfter (checkRateLimitWithKV kv key config now).1
       <= ceil_div (windowMs config) 1000.
Proof.
  intros HW. unfold checkRateLimitWithKV, floor_div.
  destruct (kv_get kv now (windowKeyOf key config now)) as [countStr|e];
    cbn [mbind outcome_bind Js.bind try_catch fst snd allowed];
    [|discriminate].
  destruct (num_ge (countOf countStr) (Num (maxRequests config)));
    cbn [mbind outcome_bind Js.bind try_catch fst snd allowed].
  - intros _.
    pose proof (window_bounds config HW _ now eq_refl) as Hb.
    cbn [remaining resetTime retryAfter].
    split; [reflexivity|]. split; [reflexivity|]. split; [reflexivity|].
    split; [lia|]. apply ceil_div_bounds; lia.
  - destruct (kv_put kv now _ _ _);
      cbn [mbind outcome_bind Js.bind try_catch fst snd allowed]; discriminate.
Qed.

Lemma durable_denial_shape_witness :
  (checkRateLimitWithKV
     ({[ "chat:1.2.3.4:28333333" := ("30", 1700000041000) ]} : store)
     "chat:1.2.3.4" CHAT 1700000000000).2
  = {[ "chat:1.2.3.4:28333333" := ("30", 1700000041000) ]}
  /\ 1 <= retryAfter
            (checkRateLimitWithKV
               ({[ "chat:1.2.3.4:28333333" := ("30", 1700000041000) ]} : store)
               "chat:1.2.3.4" CHAT 1700000000000).1
       <= ceil_div (windowMs CHAT) 1000.
Proof.
  destruct (durable_denial_shape
              ({[ "chat:1.2.3.4:28333333" := ("30", 1700000041000) ]} : store)
              "chat:1.2.3.4" CHAT 1700000000000)
    as (Hkv & _ & _ & _ & Hretry).
  - vm_compute. reflexivity.
  - vm_compute. reflexivity.
  - split; [exact Hkv | exact Hretry].
Defined.

Lemma serve_denied (key : string) (config : RateLimitConfig) (w : Z)
    (clock : list Z) (m : store) :
  0 < windowMs config ->
  0 <= maxRequests config ->
  Forall (fun now => now / windowMs config = w) clock ->
  counted key config w m (maxRequests config) ->
  serve m key config clock = (denied config w <$> clock, m).
Proof.
  intros HW HM Hclock Hc. induction Hclock as [|now clock Hnow _ IH].
  - reflexivity.
  - cbn [serve]. rewrite (check_denied key config HW w now m Hnow HM Hc).
    rewrite IH. reflexivity.
Qed.

(** X2. Requests handled one after the other, each check reading and
    writing the counter before the next check begins: in a burst of any
    length inside one window, from an identity without a stored counter,
    request number [i + 1] is allowed, with [maxRequests - (i + 1)]
    remaining, exactly while [i < maxRequests]; every later request of the
    window is denied.  Nothing is stated of checks that overlap. *)
Theorem durable_burst (key : string) (config : RateLimitConfig) (w : Z)
    (clock : list Z) (kv : store) :
  0 < windowMs config ->
  0 <= maxRequests config ->
  kv !! counterKey key w = None ->
  Forall (fun now => now / windowMs config = w) clock ->
  forall (i : nat) (now : Z),
    clock !! i = Some now ->
    (serve kv key config clock).1 !! i
    = Some (if Z.of_nat i <? maxRequests config
            then granted config w (Z.of_nat i + 1)
            else denied config w now).
Proof.
  intros HW HM Hfresh Hclock i now Hi.
  set (n := Z.to_nat (maxRequests config)).
  rewrite <- (take_drop n clock). rewrite serve_app.
  rewrite <- (take_drop n clock) in Hclock, Hi.
  apply Forall_app in Hclock as [Hin Hout].
  assert (Hlen : (length (take n clock) <= n)%nat)
    by (rewrite length_take; lia).
  assert (Hc0 : counted key config w kv 0) by (left; auto).
  destruct (serve_granted key config HW w (take n clock) kv 0 Hin ltac:(lia)
              ltac:(lia) Hc0) as (Hrs & Hget & Hcount & _).
  cbn [fst].
  destruct (Z.ltb_spec (Z.of_nat i) (maxRequests config)) as [Hlt|Hge].
  - assert (Hi' : (i < length (take n clock))%nat).
    { destruct (decide (i < length (take n clock))%nat) as [|Hn]; [assumption|].
      rewrite lookup_app_r in Hi by lia.
      apply lookup_lt_Some in Hi. rewrite length_drop in Hi.
      rewrite length_take in Hn. lia. }
    rewrite lookup_app_l by lia. rewrite Hget by exact Hi'.
    do 2 f_equal.
  - assert (Hfull : length (take n clock) = n).
    { destruct (decide (length (take n clock) = n)) as [|Hn]; [assumption|].
      rewrite length_take in Hn.
      assert (Hshort : (length clock < n)%nat) by lia.
      apply lookup_lt_Some in Hi. rewrite length_app, length_take,
        length_drop in Hi. lia. }
    rewrite Hfull in Hcount.
    replace (0 + Z.of_nat n) with (maxRequests config) in Hcount by lia.
    rewrite (serve_denied key config w (drop n clock) _ HW HM Hout Hcount).
    cbn [fst]. rewrite lookup_app_r by lia. rewrite lookup_app_r in Hi by lia.
    rewrite Hrs. rewrite list_lookup_fmap, Hi. reflexivity.
Qed.

Lemma durable_burst_witness :
  (serve (∅ : store) "auth:1.2.3.4" AUTH
     [1700000000000; 1700000000001; 1700000000002; 1700000000003;
      1700000000004; 1700000000005; 1700000000006]).1 !! 4%nat
  = Some (granted AUTH 1888888 5)
  /\ (serve (∅ : store) "auth:1.2.3.4" AUTH
        [1700000000000; 1700000000001; 1700000000002; 1700000000003;
         1700000000004; 1700000000005; 1700000000006]).1 !! 6%nat
     = Some (denied AUTH 1888888 1700000000006).
Proof.
  assert (Hclock : Forall (fun now => now / windowMs AUTH = 1888888)
                     [1700000000000; 1700000000001; 1700000000002;
                      1700000000003; 1700000000004; 1700000000005;
                      1700000000006])
    by (repeat constructor).
  split.
  - exact (durable_burst "auth:1.2.3.4" AUTH 1888888 _ ∅
             ltac:(vm_compute; reflexivity) ltac:(vm_compute; discriminate)
             (lookup_empty _) Hclock 4%nat 1700000000004 eq_refl).
  - exact (durable_burst "auth:1.2.3.4" AUTH 1888888 _ ∅
             ltac:(vm_compute; reflexivity) ltac:(vm_compute; discriminate)
             (lookup_empty _) Hclock 6%nat 1700000000006 eq_refl).
Defined.

(** ** Strings: characters, reversal, trimming *)

Lemma allChars_append (p : ascii -> bool) (a b : string) :
  allChars p (a +:+ b) = allChars p a && allChars p b.
Proof.
  induction a as [|c a IH]; [reflexivity|].
  rewrite append_cons. simpl. rewrite IH. now rewrite andb_assoc.
Qed.

Lemma allChars_impl (p q : ascii -> bool) (s : string) :
  (forall c, p c = true -> q c = true) ->
  allChars p s = true -> allChars q s = true.
Proof.
  intros Hpq. induction s as [|c s IH]; simpl; [reflexivity|].
  intros Hs. apply andb_prop in Hs as [Hc Hs].
  now rewrite (Hpq c Hc), IH.
Qed.

Lemma allDigits_allChars (s : string) : allDigits s = allChars isDigit s.
Proof. induction s as [|c s IH]; simpl; [reflexivity | now rewrite IH]. Qed.

Lemma digit_notColon (c : ascii) : isDigit c = true -> notColon c = true.
Proof.
  intros Hc. destruct (Ascii.eqb_spec c ":") as [->|Hne].
  - vm_compute in Hc. discriminate.
  - unfold notColon. now apply Ascii.eqb_neq in Hne as ->.
Qed.

Lemma String_negative (p : positive) :
  String_ (Z.neg p) = "-" +:+ pretty_N_go (N.pos p) "".
Proof. reflexivity. Qed.

Lemma String_notColon (z : Z) : allChars notColon (String_ z) = true.
Proof.
  destruct z as [|p|p].
  - reflexivity.
  - rewrite String_positive.
    destruct (pretty_N_go_value (N.pos p)) as [Ha _]; [lia|].
    rewrite allDigits_allChars in Ha.
    exact (allChars_impl _ _ _ digit_notColon Ha).
  - rewrite String_negative, allChars_append.
    destruct (pretty_N_go_value (N.pos p)) as [Ha _]; [lia|].
    rewrite allDigits_allChars in Ha.
    now rewrite (allChars_impl _ _ _ digit_notColon Ha).
Qed.

Lemma last_colon_split (a b x y : string) :
  allChars notColon x = true ->
  allChars notColon y = true ->
  a +:+ ":" +:+ x = b +:+ ":" +:+ y ->
  a = b /\ x = y.
Proof.
  intros Hx Hy. revert b. induction a as [|c a IH]; intros [|d b] E.
  - change (String ":" x = String ":" y) in E. now injection E.
  - change (String ":" x = String d (b +:+ ":" +:+ y)) in E.
    injection E as _ E. rewrite E, allChars_append in Hx.
    apply andb_prop in Hx as [_ Hx]. discriminate Hx.
  - change (String c (a +:+ ":" +:+ x) = String ":" y) in E.
    injection E as _ E. rewrite <- E, allChars_append in Hy.
    apply andb_prop in Hy as [_ Hy]. discriminate Hy.
  - rewrite !append_cons in E. injection E as -> E.
    destruct (IH b E) as [-> ->]. auto.
Qed.

Lemma windowKeyOf_key (key key' : string) (config config' : RateLimitConfig)
    (now now' : Z) :
  windowKeyOf key config now = windowKeyOf key' config' now' -> key = key'.
Proof.
  unfold windowKeyOf. intros E.
  now destruct (last_colon_split _ _ _ _ (String_notColon _)
                  (String_notColon _) E).
Qed.

Lemma check_frame (m : store) (key : string) (config : RateLimitConfig)
    (now : Z) (k : string) :
  k <> windowKeyOf key config now ->
  (checkRateLimitWithKV m key config now).2 !! k = m !! k.
Proof.
  intros Hk. unfold checkRateLimitWithKV.
  cbn [kv_get kv_put store_kv mbind outcome_bind Js.bind try_catch].
  destruct (num_ge _ _); cbn [snd]; [reflexivity|].
  unfold store_put. now apply lookup_insert_ne.
Qed.

Lemma check_depends_on_counter (m1 m2 : store) (key : string)
    (config : RateLimitConfig) (now : Z) :
  m1 !! windowKeyOf key config now = m2 !! windowKeyOf key config now ->
  (checkRateLimitWithKV m1 key config now).1
  = (checkRateLimitWithKV m2 key config now).1.
Proof.
  intros E. unfold checkRateLimitWithKV.
  cbn [kv_get kv_put store_kv mbind outcome_bind Js.bind try_catch].
  unfold store_get. rewrite E.
  destruct (num_ge _ _); reflexivity.
Qed.

(** X3. Identities do not share counters: handling a request of one
    identity, at any time and under any configuration, does not change
    the answer the durable check gives to a different identity. *)
Theorem durable_identities_isolated (m : store) (key key' : string)
    (config config' : RateLimitConfig) (now now' : Z) :
  key <> key' ->
  (checkRateLimitWithKV (checkRateLimitWithKV m key config now).2
     key' config' now').1
  = (checkRateLimitWithKV m key' config' now').1.
Proof.
  intros Hne. apply check_depends_on_counter. apply check_frame.
  intros E. apply Hne. symmetry. exact (windowKeyOf_key _ _ _ _ _ _ E).
Qed.

Lemma durable_identities_isolated_witness :
  (checkRateLimitWithKV
     (checkRateLimitWithKV (∅ : store) "chat:1.2.3.4" CHAT 1700000000000).2
     "chat:1.2.3.40" CHAT 1700000000000).1
  = (checkRateLimitWithKV (∅ : store) "chat:1.2.3.40" CHAT 1700000000000).1.
Proof.
  apply durable_identities_isolated. vm_compute. discriminate.
Defined.

Lemma check_unparsable (key : string) (config : RateLimitConfig) (w now : Z)
    (m : store) (s : string) (expires : Z) :
  0 < windowMs config ->
  now / windowMs config = w ->
  m !! counterKey key w = Some (s, expires) ->
  (w + 1) * windowMs config <= expires ->
  truthy s = true ->
  parseInt s = NaN ->
  checkRateLimitWithKV m key config now
  = (unlimited config w,
     store_put m now (counterKey key w) "NaN"
       (ceil_div (windowMs config) 1000 + 1)).
Proof.
  intros HW Hw Hm Hexp Ht Hp.
  unfold checkRateLimitWithKV, windowKeyOf, floor_div. rewrite Hw.
  fold (counterKey key w).
  cbn [kv_get kv_put store_kv mbind outcome_bind Js.bind try_catch].
  unfold store_get. rewrite Hm.
  pose proof (window_bounds config HW w now Hw).
  destruct (Z.ltb_spec now expires); [|lia].
  cbn [countOf]. rewrite Ht, Hp. reflexivity.
Qed.

(** X4. A stored counter that does not parse as a number switches the
    limit off for the rest of its window: every request is allowed, with
    [remaining] not a number, and the counter is written back as
    ["NaN"]. *)
Theorem durable_unparsable_counter (key : string) (config : RateLimitConfig)
    (w : Z) (clock : list Z) (m : store) (s : string) (expires : Z) :
  0 < windowMs config ->
  Forall (fun now => now / windowMs config = w) clock ->
  m !! counterKey key w = Some (s, expires) ->
  (w + 1) * windowMs config <= expires ->
  truthy s = true ->
  parseInt s = NaN ->
  (serve m key config clock).1 = replicate (length clock) (unlimited config w)
  /\ (clock <> [] ->
      exists expires',
        (serve m key config clock).2 !! counterKey key w
        = Some ("NaN", expires')).
Proof.
  intros HW Hclock. revert m s expires.
  induction Hclock as [|now clock Hnow Hclock IH];
    intros m s expires Hm Hexp Ht Hp.
  - split; [reflexivity | congruence].
  - cbn [serve].
    rewrite (check_unparsable key config w now m s expires HW Hnow Hm Hexp Ht Hp).
    set (m1 := store_put m now (counterKey key w) "NaN"
                 (ceil_div (windowMs config) 1000 + 1)).
    assert (Hm1 : m1 !! counterKey key w
                  = Some ("NaN", now + (ceil_div (windowMs config) 1000 + 1) * 1000))
      by apply lookup_insert_eq.
    assert (Hexp1 : (w + 1) * windowMs config
                    <= now + (ceil_div (windowMs config) 1000 + 1) * 1000).
    { pose proof (window_bounds config HW w now Hnow).
      pose proof (ttl_covers_window config). lia. }
    destruct (IH m1 "NaN" _ Hm1 Hexp1 eq_refl eq_refl) as [Hrs Hlast].
    destruct clock as [|now' clock'].
    + cbn [serve fst snd length replicate]. split; [reflexivity|].
      intros _. eexists. exact Hm1.
    + specialize (Hlast ltac:(discriminate)).
      destruct (serve m1 key config (now' :: clock')) as [rs m2].
      cbn [fst snd] in *. split; [|intros _; exact Hlast].
      change (length (now :: now' :: clock'))
        with (S (length (now' :: clock'))).
      cbn [replicate]. now rewrite Hrs.
Qed.

Lemma durable_unparsable_counter_witness :
  (serve ({[ "chat:1.2.3.4:28333333" := ("many", 1700000041000) ]} : store)
     "chat:1.2.3.4" CHAT oneMinute).1
  = replicate 31 (unlimited CHAT 28333333).
Proof.
  apply (durable_unparsable_counter "chat:1.2.3.4" CHAT 28333333 oneMinute
           _ "many" 1700000041000).
  - vm_compute. reflexivity.
  - apply (bool_decide_unpack _). vm_compute. exact I.
  - vm_compute. reflexivity.
  - vm_compute. discriminate.
  - reflexivity.
  - reflexivity.
Defined.

(** ** The stateless estimate *)

(** X5. For a configuration with positive window and quota the stateless
    check reports a [remaining] between 0 and [maxRequests - 1] and a reset
    time that is the next window boundary: later than now, by at most one
    window. *)
Theorem stateless_estimate_bounds (clientKey : string)
    (config : RateLimitConfig) (now : Z) :
  0 < windowMs config ->
  0 < maxRequests config ->
  (exists r,
      remaining (statelessRateCheck clientKey config now) = Num r
      /\ 0 <= r <= maxRequests config - 1)
  /\ resetTime (statelessRateCheck clientKey config now)
     = (now / windowMs config + 1) * windowMs config
  /\ now < resetTime (statelessRateCheck clientKey config now)
         <= now + windowMs config.
Proof.
  intros HW HM. unfold statelessRateCheck, floor_div.
  cbn [remaining resetTime num_rem].
  destruct (Z.eqb_spec (maxRequests config) 0) as [|_]; [lia|].
  cbn [Math_abs num_sub Math_max].
  pose proof (window_bounds config HW _ now eq_refl).
  split; [|split; lia].
  eexists. split; [reflexivity|].
  pose proof (Z.rem_bound_abs
                (hashString (clientKey +:+ ":"
                             +:+ String_ (now / windowMs config * windowMs config)))
                (maxRequests config) ltac:(lia)).
  lia.
Qed.

Lemma stateless_estimate_bounds_witness :
  exists r,
    remaining (statelessRateCheck "img:1.2.3.4" IMAGE_GENERATION 1700000000000)
    = Num r
    /\ 0 <= r <= 4.
Proof.
  destruct (stateless_estimate_bounds "img:1.2.3.4" IMAGE_GENERATION
              1700000000000 ltac:(vm_compute; reflexivity)
              ltac:(vm_compute; reflexivity)) as ((r & Hr & Hb) & _).
  exists r. split; [exact Hr | exact Hb].
Defined.

(** ** The middleware *)

Section MiddlewareFacts.
Context {HS B : Type}.
Variable handler : HS -> gmap string string -> NextResponse B * HS.
Variable config : RateLimitConfig.
Variable prefix : string.
Variable req : gmap string string.

Lemma handleAll_stateless {KV : Type} `{KVNamespace KV} (clock : list Z)
    (hs : HS) :
  handleAll handler config prefix (@None KV) hs req clock
  = ((respond handler config hs req
        (statelessRateCheck (generateRateLimitKey req prefix) config <$> clock)),
     @None KV).
Proof.
  revert hs. induction clock as [|now clock IH]; intros hs; [reflexivity|].
  cbn [handleAll fmap list_fmap respond]. unfold withRateLimit.
  cbn [checkRateLimit allowed statelessRateCheck negb].
  destruct (handler hs req) as [response hs'].
  rewrite IH.
  destruct (respond handler config hs' req
              (statelessRateCheck (generateRateLimitKey req prefix) config
                 <$> clock)) as [responses hs''].
  reflexivity.
Qed.

Lemma handleAll_durable {KV : Type} `{KVNamespace KV} (clock : list Z)
    (kv : KV) (hs : HS) :
  handleAll handler config prefix (Some kv) hs req clock
  = (respond handler config hs req
       (serve kv (generateRateLimitKey req prefix) config clock).1,
     Some (serve kv (generateRateLimitKey req prefix) config clock).2).
Proof.
  revert kv hs. induction clock as [|now clock IH]; intros kv hs; [reflexivity|].
  cbn [handleAll serve]. unfold withRateLimit. cbn [checkRateLimit].
  destruct (checkRateLimitWithKV kv (generateRateLimitKey req prefix) config now)
    as [result kv1].
  destruct (allowed result) eqn:Hallowed; cbn [negb].
  - destruct (handler hs req) as [response hs1] eqn:Hh. rewrite IH.
    destruct (serve kv1 (generateRateLimitKey req prefix) config clock)
      as [rs kv2].
    cbn [fst snd respond]. rewrite Hallowed. cbn [negb]. rewrite Hh.
    destruct (respond handler config hs1 req rs) as [responses hs2].
    reflexivity.
  - rewrite IH.
    destruct (serve kv1 (generateRateLimitKey req prefix) config clock)
      as [rs kv2].
    cbn [fst snd respond]. rewrite Hallowed. cbn [negb].
    destruct (respond handler config hs req rs) as [responses hs2].
    reflexivity.
Qed.

Lemma respond_app (hs : HS) (rs1 rs2 : list RateLimitResult) :
  respond handler config hs req (rs1 ++ rs2)
  = (((respond handler config hs req rs1).1
      ++ (respond handler config (respond handler config hs req rs1).2 req rs2).1)%list,
     (respond handler config (respond handler config hs req rs1).2 req rs2).2).
Proof.
  revert hs. induction rs1 as [|r rs1 IH]; intros hs.
  - cbn [app respond fst snd]. now destruct (respond handler config hs req rs2).
  - cbn [app respond]. destruct (allowed r); cbn [negb].
    + destruct (handler hs req) as [response hs1]. rewrite IH.
      destruct (respond handler config hs1 req rs1) as [resps hs2].
      reflexivity.
    + rewrite IH. destruct (respond handler config hs req rs1) as [resps hs2].
      reflexivity.
Qed.

Lemma respond_allowed (hs : HS) (rs : list RateLimitResult) :
  Forall (fun r => allowed r = true) rs ->
  respond handler config hs req rs
  = (zip_with (passed config) rs (handlerRuns handler hs req (length rs)).1,
     (handlerRuns handler hs req (length rs)).2).
Proof.
  intros Hrs. revert hs. induction Hrs as [|r rs Hr _ IH]; intros hs.
  - reflexivity.
  - cbn [respond length handlerRuns]. rewrite Hr. cbn [negb].
    destruct (handler hs req) as [response hs1]. rewrite IH.
    destruct (handlerRuns handler hs1 req (length rs)) as [resps hs2].
    reflexivity.
Qed.

Lemma respond_denied (hs : HS) (rs : list RateLimitResult) :
  Forall (fun r => allowed r = false) rs ->
  respond handler config hs req rs = (rejection config <$> rs, hs).
Proof.
  intros Hrs. induction Hrs as [|r rs Hr _ IH]; [reflexivity|].
  cbn [respond]. rewrite Hr, IH. reflexivity.
Qed.

End MiddlewareFacts.

(** X6. Without a bound store the middleware never rejects: every request
    reaches the handler, and each answer is the handler's own, with the
    three rate-limit headers set from the stateless estimate. *)
Theorem middleware_stateless_passes {KV : Type} `{KVNamespace KV}
    {HS B : Type} (handler : HS -> gmap string string -> NextResponse B * HS)
    (config : RateLimitConfig) (prefix : string) (req : gmap string string)
    (hs : HS) (clock : list Z) :
  handleAll handler config prefix (@None KV) hs req clock
  = (zip_with (passed config)
       (statelessRateCheck (generateRateLimitKey req prefix) config <$> clock)
       (handlerRuns handler hs req (length clock)).1,
     (handlerRuns handler hs req (length clock)).2,
     None).
Proof.
  rewrite handleAll_stateless. rewrite respond_allowed.
  - now rewrite length_fmap.
  - apply Forall_fmap. apply Forall_forall. intros now _. reflexivity.
Qed.

Lemma serve_burst_list (key : string) (config : RateLimitConfig) (w : Z)
    (clock : list Z) (kv : store) :
  0 < windowMs config ->
  0 <= maxRequests config ->
  kv !! counterKey key w = None ->
  Forall (fun now => now / windowMs config = w) clock ->
  (serve kv key config clock).1
  = (((fun i => granted config w (i + 1))
        <$> seqZ 0 (Z.of_nat (withinQuota config clock)))
     ++ (denied config w <$> drop (withinQuota config clock) clock))%list.
Proof.
  intros HW HM Hfresh Hclock. unfold withinQuota.
  set (n := Z.to_nat (maxRequests config)).
  rewrite <- (take_drop n clock) at 1. rewrite serve_app. cbn [fst].
  rewrite <- (take_drop n clock) in Hclock.
  apply Forall_app in Hclock as [Hin Hout].
  assert (Hlen : length (take n clock) = Nat.min (length clock) n)
    by (rewrite length_take; lia).
  assert (Hc0 : counted key config w kv 0) by (left; auto).
  destruct (serve_granted key config HW w (take n clock) kv 0 Hin ltac:(lia)
              ltac:(lia) Hc0) as (Hrs & Hget & Hcount & _).
  assert (Hfirst : (serve kv key config (take n clock)).1
                   = (fun i => granted config w (i + 1))
                       <$> seqZ 0 (Z.of_nat (Nat.min (length clock) n))).
  { apply list_eq. intros i. rewrite list_lookup_fmap.
    destruct (decide (i < length (take n clock))%nat) as [Hi|Hi].
    - rewrite Hget by exact Hi.
      rewrite (proj2 (lookup_seqZ 0 _ i (0 + Z.of_nat i)))
        by (split; [reflexivity | lia]).
      reflexivity.
    - rewrite lookup_ge_None_2 by lia.
      rewrite lookup_ge_None_2; [reflexivity|]. rewrite length_seqZ. lia. }
  rewrite Hfirst. f_equal.
  destruct (decide (n <= length clock)%nat) as [Hn|Hn].
  - replace (Nat.min (length clock) n) with n by lia.
    rewrite Hlen in Hcount.
    replace (0 + Z.of_nat (Nat.min (length clock) n)) with (maxRequests config)
      in Hcount by lia.
    now rewrite (serve_denied key config w (drop n clock) _ HW HM Hout Hcount).
  - replace (Nat.min (length clock) n) with (length clock) by lia.
    rewrite !drop_ge by lia. reflexivity.
Qed.

(** X7. With a bound store, and the requests handled one after the other,
    each answered before the next is checked: of a burst inside one
    window, from a client without a stored counter, the first
    [maxRequests] requests are answered by the handler (with the remaining
    quota counting down in the headers), every further one is answered
    with status 429 by the middleware, and the handler runs once for each
    request within quota and for no other.  Nothing is stated of requests
    whose handling overlaps. *)
Theorem middleware_enforces_quota {HS B : Type}
    (handler : HS -> gmap string string -> NextResponse B * HS)
    (config : RateLimitConfig) (prefix : string) (req : gmap string string)
    (hs : HS) (w : Z) (clock : list Z) (kv : store) :
  0 < windowMs config ->
  0 <= maxRequests config ->
  kv !! counterKey (generateRateLimitKey req prefix) w = None ->
  Forall (fun now => now / windowMs config = w) clock ->
  handleAll handler config prefix (Some kv) hs req clock
  = ((zip_with (passed config)
        ((fun i => granted config w (i + 1))
           <$> seqZ 0 (Z.of_nat (withinQuota config clock)))
        (handlerRuns handler hs req (withinQuota config clock)).1
      ++ (rejection config
            <$> (denied config w <$> drop (withinQuota config clock) clock)))%list,
     (handlerRuns handler hs req (withinQuota config clock)).2,
     Some (serve kv (generateRateLimitKey req prefix) config clock).2).
Proof.
  intros HW HM Hfresh Hclock.
  rewrite handleAll_durable.
  rewrite (serve_burst_list _ config w clock kv HW HM Hfresh Hclock).
  rewrite respond_app.
  rewrite (respond_allowed handler config req hs).
  - cbn [fst snd]. rewrite length_fmap, length_seqZ, Nat2Z.id.
    rewrite respond_denied; [reflexivity|].
    apply Forall_fmap, Forall_forall. intros now _. reflexivity.
  - apply Forall_fmap, Forall_forall. intros i _. reflexivity.
Qed.

Lemma middleware_enforces_quota_witness :
  (handleAll countingHandler IMAGE_GENERATION "image" (Some (∅ : store))
     0%nat sampleRequest sevenRequests).1.2 = 5%nat
  /\ status <$> (handleAll countingHandler IMAGE_GENERATION "image"
                   (Some (∅ : store)) 0%nat sampleRequest sevenRequests).1.1
     = [200; 200; 200; 200; 200; 429; 429].
Proof.
  rewrite (middleware_enforces_quota countingHandler IMAGE_GENERATION "image"
             sampleRequest 0%nat 28333333 sevenRequests ∅).
  - split; vm_compute; reflexivity.
  - vm_compute. reflexivity.
  - vm_compute. discriminate.
  - apply lookup_empty.
  - apply (bool_decide_unpack _). vm_compute. exact I.
Defined.

(** ** Matchers *)

Lemma append_nil_r (s : string) : s +:+ "" = s.
Proof. induction s as [|c s IH]; [reflexivity|]. rewrite append_cons. now rewrite IH. Qed.

Lemma length_append (a b : string) :
  String.length (a +:+ b) = (String.length a + String.length b)%nat.
Proof.
  induction a as [|c a IH]; [reflexivity|].
  rewrite append_cons. simpl. now rewrite IH.
Qed.

Lemma consumes_cls (q p : ascii -> bool) :
  (forall c, q c = true -> p c = true) -> consumes (cls q) p 1 1.
Proof.
  intros Hqp s rest Hin. destruct s as [|c r]; [destruct Hin|].
  simpl in Hin. destruct (q c) eqn:Hc; [|destruct Hin].
  destruct Hin as [<-|[]]. exists (String c "").
  split; [reflexivity|]. split; [simpl; now rewrite (Hqp c Hc) | simpl; lia].
Qed.

Lemma consumes_cat (a b : matcher) (p : ascii -> bool) (l1 h1 l2 h2 : nat) :
  consumes a p l1 h1 -> consumes b p l2 h2 ->
  consumes (cat a b) p (l1 + l2) (h1 + h2).
Proof.
  intros Ha Hb s rest Hin. unfold cat in Hin.
  apply in_flat_map in Hin as (mid & Hmid & Hrest).
  destruct (Ha _ _ Hmid) as (pre1 & -> & Hp1 & Hl1).
  destruct (Hb _ _ Hrest) as (pre2 & -> & Hp2 & Hl2).
  exists (pre1 +:+ pre2). repeat split.
  - now rewrite append_assoc.
  - now rewrite allChars_append, Hp1, Hp2.
  - rewrite length_append. lia.
  - rewrite length_append. lia.
Qed.

Lemma consumes_times (a : matcher) (p : ascii -> bool) (l h n : nat) :
  consumes a p l h -> consumes (times n a) p (n * l) (n * h).
Proof.
  intros Ha. induction n as [|n IH].
  - intros s rest [<-|[]]. exists "". repeat split; simpl; lia.
  - cbn [times]. replace (S n * l)%nat with (l + n * l)%nat by lia.
    replace (S n * h)%nat with (h + n * h)%nat by lia.
    now apply consumes_cat.
Qed.

Lemma consumes_upto (a : matcher) (p : ascii -> bool) (l h n : nat) :
  consumes a p l h -> consumes (upto n a) p 0 (n * h).
Proof.
  intros Ha. induction n as [|n IH].
  - intros s rest [<-|[]]. exists "". repeat split; simpl; lia.
  - intros s rest Hin. cbn [upto] in Hin. apply in_app_or in Hin as [Hin|Hin].
    + destruct (consumes_cat _ _ _ _ _ _ _ Ha IH _ _ Hin)
        as (pre & -> & Hp & Hl).
      exists pre. repeat split; [assumption | lia | lia].
    + destruct Hin as [<-|[]]. exists "". repeat split; simpl; lia.
Qed.

Lemma consumes_rep (a : matcher) (p : ascii -> bool) (l h lo hi : nat) :
  consumes a p l h ->
  consumes (rep lo hi a) p (lo * l) (lo * h + (hi - lo) * h).
Proof.
  intros Ha. unfold rep.
  replace (lo * l)%nat with (lo * l + 0)%nat by lia.
  apply consumes_cat;
    [apply consumes_times; exact Ha | apply (consumes_upto a p l h); exact Ha].
Qed.

Lemma consumes_weaken (m : matcher) (p q : ascii -> bool) (lo hi lo' hi' : nat) :
  (forall c, p c = true -> q c = true) ->
  (lo' <= lo)%nat -> (hi <= hi')%nat ->
  consumes m p lo hi -> consumes m q lo' hi'.
Proof.
  intros Hpq Hlo Hhi Hm s rest Hin.
  destruct (Hm _ _ Hin) as (pre & -> & Hp & Hl).
  exists pre. repeat split; [|lia|lia]. exact (allChars_impl _ _ _ Hpq Hp).
Qed.

Lemma test_consumes (m : matcher) (p : ascii -> bool) (lo hi : nat)
    (s : string) :
  consumes m p lo hi ->
  test m s = true ->
  allChars p s = true /\ (lo <= String.length s <= hi)%nat.
Proof.
  intros Hm Ht. unfold test in Ht. apply existsb_exists in Ht as (rest & Hin & E).
  apply String.eqb_eq in E. subst rest.
  destruct (Hm _ _ Hin) as (pre & -> & Hp & Hl).
  rewrite append_nil_r. auto.
Qed.

Lemma ipv4Pattern_consumes (ip : string) :
  ipv4Pattern ip = true ->
  allChars isIpv4Char ip = true /\ (7 <= String.length ip <= 15)%nat.
Proof.
  apply test_consumes.
  assert (Hd : consumes (cls isDigit) isIpv4Char 1 1)
    by (apply consumes_cls; intros c Hc; unfold isIpv4Char; now rewrite Hc).
  assert (Hdot : consumes (lit ".") isIpv4Char 1 1).
  { apply consumes_cls. intros c Hc. unfold isIpv4Char.
    rewrite Ascii.eqb_sym in Hc. rewrite Hc. apply orb_true_r. }
  pose proof (consumes_rep _ _ _ _ 1 3 Hd) as Hrun.
  pose proof (consumes_cat _ _ _ _ _ _ _ Hrun Hdot) as Hgroup.
  pose proof (consumes_times _ _ _ _ 3 Hgroup) as Hgroups.
  exact (consumes_cat _ _ _ _ _ _ _ Hgroups Hrun).
Qed.

Lemma ipv6Pattern_consumes (ip : string) :
  ipv6Pattern ip = true ->
  allChars isIpv6Char ip = true /\ (15 <= String.length ip <= 39)%nat.
Proof.
  apply test_consumes.
  assert (Hd : consumes (cls isHexDigit) isIpv6Char 1 1)
    by (apply consumes_cls; intros c Hc; unfold isIpv6Char; now rewrite Hc).
  assert (Hcolon : consumes (lit ":") isIpv6Char 1 1).
  { apply consumes_cls. intros c Hc. unfold isIpv6Char.
    rewrite Ascii.eqb_sym in Hc. rewrite Hc. apply orb_true_r. }
  pose proof (consumes_rep _ _ _ _ 1 4 Hd) as Hrun.
  pose proof (consumes_cat _ _ _ _ _ _ _ Hrun Hcolon) as Hgroup.
  pose proof (consumes_times _ _ _ _ 7 Hgroup) as Hgroups.
  exact (consumes_cat _ _ _ _ _ _ _ Hgroups Hrun).
Qed.

(** X8. What [isValidIP] accepts is either 7 to 15 characters of digits
    and dots, or 15 to 39 characters of hexadecimal digits and colons; in
    particular nothing with white space, commas or control characters. *)
Theorem isValidIP_shape (ip : string) :
  isValidIP ip = true ->
  (allChars isIpv4Char ip = true /\ (7 <= String.length ip <= 15)%nat)
  \/ (allChars isIpv6Char ip = true /\ (15 <= String.length ip <= 39)%nat).
Proof.
  unfold isValidIP. destruct (ipv4Pattern ip) eqn:H4.
  - intros _. left. now apply ipv4Pattern_consumes.
  - intros H6. right. now apply ipv6Pattern_consumes.
Qed.

Lemma isValidIP_shape_witness :
  (allChars isIpv4Char "203.0.113.7" = true
   /\ (7 <= String.length "203.0.113.7" <= 15)%nat)
  \/ (allChars isIpv6Char "203.0.113.7" = true
      /\ (15 <= String.length "203.0.113.7" <= 39)%nat).
Proof. apply isValidIP_shape. vm_compute. reflexivity. Defined.


Lemma cls_complete (p : ascii -> bool) (c : ascii) (rest : string) :
  p c = true -> In rest (cls p (String c rest)).
Proof. intros Hc. simpl. rewrite Hc. now left. Qed.

Lemma times_complete (p : ascii -> bool) (pre rest : string) :
  allChars p pre = true ->
  In rest (times (String.length pre) (cls p) (pre +:+ rest)).
Proof.
  induction pre as [|c pre IH]; intros Hp.
  - now left.
  - simpl in Hp. apply andb_prop in Hp as [Hc Hp].
    rewrite append_cons. cbn [String.length times]. unfold cat.
    apply in_flat_map. exists (pre +:+ rest).
    split; [now apply cls_complete | now apply IH].
Qed.

Lemma upto_complete (p : ascii -> bool) (n : nat) (pre rest : string) :
  allChars p pre = true ->
  (String.length pre <= n)%nat ->
  In rest (upto n (cls p) (pre +:+ rest)).
Proof.
  revert pre. induction n as [|n IH]; intros [|c pre] Hp Hl; simpl in Hl;
    try lia.
  - now left.
  - cbn [upto]. apply in_or_app. right. now left.
  - simpl in Hp. apply andb_prop in Hp as [Hc Hp].
    cbn [upto]. apply in_or_app. left. rewrite append_cons. unfold cat.
    apply in_flat_map. exists (pre +:+ rest).
    split; [now apply cls_complete | apply IH; [assumption | lia]].
Qed.

Lemma string_split_at (n : nat) (s : string) :
  (n <= String.length s)%nat ->
  exists a b, s = a +:+ b /\ String.length a = n.
Proof.
  revert s. induction n as [|n IH]; intros s Hl.
  - exists "", s. auto.
  - destruct s as [|c s]; simpl in Hl; [lia|].
    destruct (IH s ltac:(lia)) as (a & b & -> & Ha).
    exists (String c a), b. split; [reflexivity | simpl; lia].
Qed.

Lemma rep_complete (p : ascii -> bool) (lo hi : nat) (pre rest : string) :
  allChars p pre = true ->
  (lo <= String.length pre <= hi)%nat ->
  In rest (rep lo hi (cls p) (pre +:+ rest)).
Proof.
  intros Hp Hl.
  destruct (string_split_at lo pre ltac:(lia)) as (a & b & -> & Ha).
  rewrite allChars_append in Hp. apply andb_prop in Hp as [Hpa Hpb].
  rewrite length_append in Hl.
  unfold rep, cat. apply in_flat_map. exists (b +:+ rest). split.
  - rewrite append_assoc, <- Ha. now apply times_complete.
  - apply upto_complete; [assumption | lia].
Qed.

Lemma split_no_separator (sep : ascii) (s : string) :
  allChars (fun c => negb (Ascii.eqb c sep)) s = true ->
  split sep s = [s].
Proof.
  induction s as [|c s IH]; simpl; [reflexivity|].
  intros Hs. apply andb_prop in Hs as [Hc Hs].
  apply negb_true_iff in Hc. rewrite Hc, IH by assumption. reflexivity.
Qed.

Lemma split_at_separator (sep : ascii) (s r : string) :
  allChars (fun c => negb (Ascii.eqb c sep)) s = true ->
  split sep (s +:+ String sep r) = s :: split sep r.
Proof.
  induction s as [|c s IH]; intros Hs.
  - change ("" +:+ String sep r) with (String sep r). simpl.
    now rewrite Ascii.eqb_refl.
  - simpl in Hs. apply andb_prop in Hs as [Hc Hs].
    apply negb_true_iff in Hc. rewrite append_cons. simpl.
    rewrite Hc, IH by assumption. reflexivity.
Qed.

Lemma small_number_string (n : Z) :
  0 <= n < 1000 ->
  allChars isDigit (String_ n) = true
  /\ (1 <= String.length (String_ n) <= 3)%nat
  /\ Number_ (String_ n) = Num n.
Proof.
  intros Hn.
  assert (Hall : forallb
                   (fun n =>
                      allChars isDigit (String_ n)
                      && (1 <=? String.length (String_ n))%nat
                      && (String.length (String_ n) <=? 3)%nat
                      && match Number_ (String_ n) with
                         | Num v => v =? n
                         | NaN => false
                         end)
                   (seqZ 0 1000) = true) by (vm_compute; reflexivity).
  rewrite forallb_forall in Hall.
  specialize (Hall n). cbv beta in Hall.
  assert (Hin : In n (seqZ 0 1000))
    by (apply list_elem_of_In, elem_of_seqZ; lia).
  apply Hall in Hin.
  repeat (apply andb_prop in Hin as [Hin ?]).
  destruct (Number_ (String_ n)) as [v|]; [|discriminate].
  repeat split; try assumption.
  - now apply Nat.leb_le.
  - now apply Nat.leb_le.
  - f_equal. now apply Z.eqb_eq.
Qed.

Lemma digits_no_dot (s : string) :
  allChars isDigit s = true ->
  allChars (fun c => negb (Ascii.eqb c ".")) s = true.
Proof.
  apply allChars_impl. intros c Hc. apply negb_true_iff.
  destruct (Ascii.eqb_spec c ".") as [->|]; [|reflexivity].
  vm_compute in Hc. discriminate.
Qed.

Lemma ipv4Pattern_quad (a b c d : string) :
  allChars isDigit a = true -> (1 <= String.length a <= 3)%nat ->
  allChars isDigit b = true -> (1 <= String.length b <= 3)%nat ->
  allChars isDigit c = true -> (1 <= String.length c <= 3)%nat ->
  allChars isDigit d = true -> (1 <= String.length d <= 3)%nat ->
  ipv4Pattern (a +:+ "." +:+ b +:+ "." +:+ c +:+ "." +:+ d) = true.
Proof.
  intros Ha La Hb Lb Hc Lc Hd Ld.
  unfold ipv4Pattern, test. apply existsb_exists. exists "".
  split; [|reflexivity].
  assert (Hgroup : forall x rest,
             allChars isDigit x = true -> (1 <= String.length x <= 3)%nat ->
             In rest (cat (rep 1 3 (cls isDigit)) (lit ".") (x +:+ "." +:+ rest))).
  { intros x rest Hx Lx. unfold cat. apply in_flat_map.
    exists ("." +:+ rest). split; [now apply rep_complete|].
    apply cls_complete. reflexivity. }
  unfold cat at 1. apply in_flat_map. exists d. split.
  - cbn [times]. unfold cat at 1. apply in_flat_map.
    exists (b +:+ "." +:+ c +:+ "." +:+ d). split; [now apply Hgroup|].
    unfold cat at 1. apply in_flat_map.
    exists (c +:+ "." +:+ d). split; [now apply Hgroup|].
    unfold cat at 1. apply in_flat_map.
    exists d. split; [now apply Hgroup | now left].
  - rewrite <- (append_nil_r d) at 1. now apply rep_complete.
Qed.

(** X10. A dotted quad of four numbers below 1000, written in decimal, is
    accepted by [isValidIP] exactly when every number is at most 255. *)
Theorem isValidIP_dotted_quad (a b c d : Z) :
  0 <= a < 1000 -> 0 <= b < 1000 -> 0 <= c < 1000 -> 0 <= d < 1000 ->
  isValidIP (dottedQuad a b c d)
  = (a <=? 255) && (b <=? 255) && (c <=? 255) && (d <=? 255).
Proof.
  intros Ha Hb Hc Hd.
  destruct (small_number_string a Ha) as (Da & La & Na).
  destruct (small_number_string b Hb) as (Db & Lb & Nb).
  destruct (small_number_string c Hc) as (Dc & Lc & Nc).
  destruct (small_number_string d Hd) as (Dd & Ld & Nd).
  unfold isValidIP, dottedQuad.
  rewrite ipv4Pattern_quad by assumption.
  change (String_ a +:+ "." +:+ String_ b +:+ "." +:+ String_ c +:+ "."
          +:+ String_ d)
    with (String_ a +:+ String "." (String_ b +:+ String "."
            (String_ c +:+ String "." (String_ d)))).
  rewrite !split_at_separator by (now apply digits_no_dot).
  rewrite split_no_separator by (now apply digits_no_dot).
  cbn [map forallb]. rewrite Na, Nb, Nc, Nd. cbn [num_ge].
  destruct (Z.leb_spec 0 a), (Z.leb_spec 0 b), (Z.leb_spec 0 c),
    (Z.leb_spec 0 d); lia.
Qed.

Lemma isValidIP_dotted_quad_witness :
  isValidIP (dottedQuad 192 168 0 1) = true
  /\ isValidIP (dottedQuad 192 168 0 256) = false.
Proof.
  split.
  - rewrite (isValidIP_dotted_quad 192 168 0 1) by lia. reflexivity.
  - rewrite (isValidIP_dotted_quad 192 168 0 256) by lia. reflexivity.
Defined.

(** ** Reversal and trimming *)

Lemma rev_app_append (s acc : string) :
  String.rev_app s acc = String.rev s +:+ acc.
Proof.
  unfold String.rev. revert acc. induction s as [|c s IH]; intros acc.
  - reflexivity.
  - cbn [String.rev_app]. rewrite (IH (String c acc)), (IH (String c "")).
    now rewrite append_assoc.
Qed.

Lemma rev_cons (c : ascii) (s : string) :
  String.rev (String c s) = String.rev s +:+ String c "".
Proof.
  unfold String.rev at 1. cbn [String.rev_app]. apply rev_app_append.
Qed.

Lemma rev_append (a b : string) :
  String.rev (a +:+ b) = String.rev b +:+ String.rev a.
Proof.
  induction a as [|c a IH].
  - change ("" +:+ b) with b. now rewrite append_nil_r.
  - rewrite append_cons, !rev_cons, IH. now rewrite append_assoc.
Qed.

Lemma rev_involutive (s : string) : String.rev (String.rev s) = s.
Proof.
  induction s as [|c s IH]; [reflexivity|].
  rewrite rev_cons, rev_append, IH. reflexivity.
Qed.

Lemma trimStart_decompose (s : string) :
  exists a, s = a +:+ trimStart s /\ allChars isWhiteSpace a = true.
Proof.
  induction s as [|c s (a & Ha & Hws)].
  - exists "". auto.
  - simpl. destruct (isWhiteSpace c) eqn:Hc.
    + exists (String c a). split; [now rewrite append_cons, <- Ha|].
      simpl. now rewrite Hc.
    + exists "". auto.
Qed.

Lemma trimStart_noLeadingSpace (s : string) :
  noLeadingSpace (trimStart s) = true.
Proof.
  induction s as [|c s IH]; [reflexivity|].
  simpl. destruct (isWhiteSpace c) eqn:Hc; [exact IH|].
  simpl. now rewrite Hc.
Qed.

Lemma trimStart_fixed (s : string) :
  noLeadingSpace s = true -> trimStart s = s.
Proof.
  destruct s as [|c s]; [reflexivity|]. simpl.
  intros Hc. apply negb_true_iff in Hc. now rewrite Hc.
Qed.

Lemma noLeadingSpace_prefix (x y : string) :
  noLeadingSpace (x +:+ y) = true -> x <> "" -> noLeadingSpace x = true.
Proof. destruct x as [|c x]; [congruence|]. now rewrite append_cons. Qed.

Lemma trim_noTrailingSpace (s : string) :
  noLeadingSpace (String.rev (trim s)) = true.
Proof.
  unfold trim. rewrite rev_involutive. apply trimStart_noLeadingSpace.
Qed.

Lemma trim_noLeadingSpace (s : string) : noLeadingSpace (trim s) = true.
Proof.
  unfold trim.
  destruct (trimStart_decompose (String.rev (trimStart s))) as (a & Ha & _).
  set (u := trimStart (String.rev (trimStart s))) in *.
  destruct (decide (String.rev u = "")) as [->|Hne]; [reflexivity|].
  apply (noLeadingSpace_prefix _ (String.rev a)); [|exact Hne].
  rewrite <- rev_append, <- Ha, rev_involutive.
  apply trimStart_noLeadingSpace.
Qed.

Lemma trim_fixed (s : string) :
  noLeadingSpace s = true ->
  noLeadingSpace (String.rev s) = true ->
  trim s = s.
Proof.
  intros H1 H2. unfold trim.
  rewrite (trimStart_fixed s H1), (trimStart_fixed _ H2).
  apply rev_involutive.
Qed.

Lemma trim_idempotent (s : string) : trim (trim s) = trim s.
Proof.
  apply trim_fixed; [apply trim_noLeadingSpace | apply trim_noTrailingSpace].
Qed.

Lemma trim_decompose (s : string) :
  exists a b,
    s = a +:+ trim s +:+ b
    /\ allChars isWhiteSpace a = true
    /\ allChars isWhiteSpace b = true.
Proof.
  destruct (trimStart_decompose s) as (a & Ha & Hwa).
  destruct (trimStart_decompose (String.rev (trimStart s))) as (b & Hb & Hwb).
  exists a, (String.rev b). split; [|split].
  - unfold trim. rewrite <- rev_append, <- Hb, rev_involutive. exact Ha.
  - exact Hwa.
  - clear -Hwb. induction b as [|c b IH]; [reflexivity|].
    simpl in Hwb. apply andb_prop in Hwb as [Hc Hb].
    rewrite rev_cons, allChars_append, IH by assumption. simpl. now rewrite Hc.
Qed.

Lemma includes_trim (s sub : string) :
  includes (trim s) sub = true -> includes s sub = true.
Proof.
  intros Hin. destruct (trim_decompose s) as (a & b & Hs & _).
  apply includes_append in Hin as (x & y & Hxy).
  apply includes_append. exists (a +:+ x), (y +:+ b).
  rewrite Hs at 1. rewrite Hxy. now rewrite !append_assoc.
Qed.

(** ** The literals [isValidIP] accepts *)

Lemma joined_split (sep : ascii) (s : string) :
  exists gs last, split sep s = (gs ++ [last])%list /\ s = joined sep gs last.
Proof.
  induction s as [|c r (gs & last & Esplit & Er)].
  - exists [], "". auto.
  - cbn [split]. destruct (Ascii.eqb_spec c sep) as [->|Hne].
    + exists ("" :: gs), last. rewrite Esplit. split; [reflexivity|].
      cbn [joined]. now rewrite <- Er.
    + rewrite Esplit. destruct gs as [|g gs].
      * exists [], (String c last). split; [reflexivity|].
        cbn [joined] in *. now rewrite Er.
      * exists (String c g :: gs), last. split; [reflexivity|].
        cbn [joined] in *. now rewrite Er.
Qed.

Section Separated.

Variables (p : ascii -> bool) (sep : ascii) (lo hi : nat).
Hypothesis Hsep : p sep = false.
Hypothesis Hlohi : (lo <= hi)%nat.

Lemma rep_sound (s rest : string) :
  In rest (rep lo hi (cls p) s) ->
  exists g, s = g +:+ rest /\ isGroup p lo hi g = true.
Proof.
  intros Hin.
  assert (Hc : consumes (cls p) p 1 1) by (apply consumes_cls; auto).
  destruct (consumes_rep _ _ _ _ lo hi Hc _ _ Hin) as (g & -> & Hg & Hl).
  exists g. split; [reflexivity|]. unfold isGroup. rewrite Hg. cbn [andb].
  apply andb_true_intro. split; apply Nat.leb_le; lia.
Qed.

Lemma group_sound (s rest : string) :
  In rest (cat (rep lo hi (cls p)) (lit sep) s) ->
  exists g, s = g +:+ String sep rest /\ isGroup p lo hi g = true.
Proof.
  intros Hin. unfold cat in Hin. apply in_flat_map in Hin as (mid & Hmid & Hrest).
  destruct (rep_sound _ _ Hmid) as (g & -> & Hg). exists g. split; [|exact Hg].
  destruct mid as [|c r]; [destruct Hrest|]. unfold lit in Hrest. simpl in Hrest.
  destruct (Ascii.eqb_spec sep c) as [<-|]; [|destruct Hrest].
  destruct Hrest as [<-|[]]. reflexivity.
Qed.

Lemma groups_sound (n : nat) (s rest : string) :
  In rest (times n (cat (rep lo hi (cls p)) (lit sep)) s) ->
  exists gs,
    length gs = n /\ forallb (isGroup p lo hi) gs = true
    /\ s = joined sep gs rest.
Proof.
  revert s. induction n as [|n IH]; intros s Hin.
  - destruct Hin as [<-|[]]. exists []. auto.
  - cbn [times] in Hin. unfold cat at 1 in Hin.
    apply in_flat_map in Hin as (mid & Hmid & Hrest).
    destruct (group_sound _ _ Hmid) as (g & -> & Hg).
    destruct (IH _ Hrest) as (gs & <- & Hgs & ->).
    exists (g :: gs). cbn [length forallb joined]. now rewrite Hg, Hgs.
Qed.

Lemma group_no_separator (g : string) :
  isGroup p lo hi g = true ->
  allChars (fun c => negb (Ascii.eqb c sep)) g = true.
Proof.
  unfold isGroup. intros Hg. apply andb_prop in Hg as [Hg _].
  apply andb_prop in Hg as [Hg _]. eapply allChars_impl; [|exact Hg].
  intros c Hc. apply negb_true_iff.
  destruct (Ascii.eqb_spec c sep) as [->|]; [congruence | reflexivity].
Qed.

Lemma split_joined (gs : list string) (last : string) :
  forallb (isGroup p lo hi) gs = true ->
  isGroup p lo hi last = true ->
  split sep (joined sep gs last) = (gs ++ [last])%list.
Proof.
  intros Hgs Hlast. induction gs as [|g gs IH].
  - apply split_no_separator. now apply group_no_separator.
  - cbn [forallb] in Hgs. apply andb_prop in Hgs as [Hg Hgs].
    cbn [joined]. rewrite split_at_separator by (now apply group_no_separator).
    now rewrite IH.
Qed.

Lemma groups_complete (gs : list string) (rest : string) :
  forallb (isGroup p lo hi) gs = true ->
  In rest (times (length gs) (cat (rep lo hi (cls p)) (lit sep))
                 (joined sep gs rest)).
Proof.
  induction gs as [|g gs IH]; intros Hgs; [now left|].
  cbn [forallb] in Hgs. apply andb_prop in Hgs as [Hg Hgs].
  unfold isGroup in Hg. apply andb_prop in Hg as [Hg Hhi].
  apply andb_prop in Hg as [Hg Hlo]. apply Nat.leb_le in Hlo, Hhi.
  cbn [length times joined]. unfold cat at 1. apply in_flat_map.
  exists (joined sep gs rest). split; [|now apply IH].
  unfold cat. apply in_flat_map. exists (String sep (joined sep gs rest)).
  split; [now apply rep_complete|]. apply cls_complete. apply Ascii.eqb_refl.
Qed.

Lemma separated_split (n : nat) (s : string) :
  separated p lo hi sep n s
  = (length (split sep s) =? S n)%nat
    && forallb (isGroup p lo hi) (split sep s).
Proof.
  destruct (separated p lo hi sep n s) eqn:Ht; symmetry.
  - unfold separated, test in Ht.
    apply existsb_exists in Ht as (rest & Hin & E).
    apply String.eqb_eq in E. subst rest.
    unfold cat at 1 in Hin. apply in_flat_map in Hin as (mid & Hmid & Hlast).
    destruct (groups_sound _ _ _ Hmid) as (gs & <- & Hgs & ->).
    destruct (rep_sound _ _ Hlast) as (last & -> & Hg).
    rewrite append_nil_r in *.
    rewrite (split_joined gs last Hgs Hg).
    rewrite length_app, forallb_app. cbn [length forallb].
    rewrite Hgs, Hg. cbn [andb]. rewrite andb_true_r.
    apply Nat.eqb_eq. lia.
  - destruct ((length (split sep s) =? S n)%nat
              && forallb (isGroup p lo hi) (split sep s)) eqn:Hs;
      [|reflexivity].
    apply andb_prop in Hs as [Hlen Hall]. apply Nat.eqb_eq in Hlen.
    destruct (joined_split sep s) as (gs & last & Esplit & Es).
    rewrite Esplit in Hlen, Hall. rewrite length_app in Hlen.
    cbn [length] in Hlen. rewrite forallb_app in Hall. cbn [forallb] in Hall.
    apply andb_prop in Hall as [Hgs Hlast]. rewrite andb_true_r in Hlast.
    rewrite <- Ht. symmetry. unfold separated, test. apply existsb_exists.
    exists "". split; [|reflexivity].
    unfold cat at 1. apply in_flat_map. exists last. split.
    + replace n with (length gs) by lia. rewrite Es.
      now apply groups_complete.
    + unfold isGroup in Hlast. apply andb_prop in Hlast as [Hg Hhi].
      apply andb_prop in Hg as [Hg Hlo]. apply Nat.leb_le in Hlo, Hhi.
      rewrite <- (append_nil_r last) at 1. now apply rep_complete.
Qed.

End Separated.

Lemma ipv4Pattern_split (ip : string) :
  ipv4Pattern ip
  = (length (split "." ip) =? 4)%nat
    && forallb (isGroup isDigit 1 3) (split "." ip).
Proof. apply (separated_split isDigit "." 1 3 eq_refl ltac:(lia) 3 ip). Qed.

Lemma ipv6Pattern_split (ip : string) :
  ipv6Pattern ip
  = (length (split ":" ip) =? 8)%nat
    && forallb (isGroup isHexDigit 1 4) (split ":" ip).
Proof. apply (separated_split isHexDigit ":" 1 4 eq_refl ltac:(lia) 7 ip). Qed.

Lemma forallb_allChars (p : ascii -> bool) (s : string) :
  forallb p (list_ascii_of_string s) = allChars p s.
Proof. induction s as [|c s IH]; [reflexivity|]. simpl. now rewrite IH. Qed.

Lemma isDecimal_isDigit (c : ascii) : isDecimal c = isDigit c.
Proof. destruct c as [[] [] [] [] [] [] [] []]; reflexivity. Qed.

Lemma isHexadecimal_isHexDigit (c : ascii) : isHexadecimal c = isHexDigit c.
Proof. destruct c as [[] [] [] [] [] [] [] []]; reflexivity. Qed.

Lemma forallb_pointwise {A : Type} (f g : A -> bool) (l : list A) :
  (forall x, In x l -> f x = g x) -> forallb f l = forallb g l.
Proof.
  induction l as [|x l IH]; intros E; [reflexivity|]. cbn [forallb].
  rewrite (E x) by now left. rewrite IH; [reflexivity|].
  intros y Hy. apply E. now right.
Qed.

Lemma forallb_both {A : Type} (f g : A -> bool) (l : list A) :
  forallb (fun x => f x && g x) l = forallb f l && forallb g l.
Proof.
  induction l as [|x l IH]; [reflexivity|]. cbn [forallb]. rewrite IH.
  destruct (f x), (g x), (forallb f l); reflexivity.
Qed.

Lemma isHextet_group (g : string) : isHextet g = isGroup isHexDigit 1 4 g.
Proof.
  unfold isHextet, isGroup. rewrite <- forallb_allChars.
  now rewrite (forallb_pointwise isHexadecimal isHexDigit)
    by (intros; apply isHexadecimal_isHexDigit).
Qed.

Lemma isOctet_group (g : string) :
  isOctet g = isGroup isDigit 1 3 g && (decimalValue g <=? 255).
Proof.
  unfold isOctet, isGroup. rewrite <- forallb_allChars.
  now rewrite (forallb_pointwise isDecimal isDigit)
    by (intros; apply isDecimal_isDigit).
Qed.

Lemma isFullIPv6_pattern (ip : string) : isFullIPv6 ip = ipv6Pattern ip.
Proof.
  unfold isFullIPv6. rewrite ipv6Pattern_split.
  now rewrite (forallb_pointwise isHextet (isGroup isHexDigit 1 4))
    by (intros; apply isHextet_group).
Qed.

Lemma isDottedQuad_pattern (ip : string) :
  isDottedQuad ip
  = ipv4Pattern ip
    && forallb (fun g => decimalValue g <=? 255) (split "." ip).
Proof.
  unfold isDottedQuad. rewrite ipv4Pattern_split.
  rewrite (forallb_pointwise isOctet
             (fun g => isGroup isDigit 1 3 g && (decimalValue g <=? 255)))
    by (intros; apply isOctet_group).
  rewrite forallb_both. now rewrite andb_assoc.
Qed.

(** *** [Number] on a run of digits *)

Lemma digitsValue_run (s : string) (acc : Z) :
  allChars isDigit s = true ->
  digitsValue (Some acc) s
  = Some (fold_left (fun acc c => 10 * acc + (charCode c - 48))
                    (list_ascii_of_string s) acc).
Proof.
  revert acc. induction s as [|c s IH]; intros acc Hs; [reflexivity|].
  simpl in Hs. apply andb_prop in Hs as [Hc Hs].
  cbn [digitsValue list_ascii_of_string fold_left]. rewrite Hc.
  cbn [default from_option id]. now apply IH.
Qed.

Lemma decimal_run_nonneg (s : string) (acc : Z) :
  allChars isDigit s = true -> 0 <= acc ->
  0 <= fold_left (fun acc c => 10 * acc + (charCode c - 48))
                 (list_ascii_of_string s) acc.
Proof.
  revert acc. induction s as [|c s IH]; intros acc Hs Hacc; [exact Hacc|].
  simpl in Hs. apply andb_prop in Hs as [Hc Hs].
  cbn [list_ascii_of_string fold_left]. apply IH; [exact Hs|].
  unfold isDigit in Hc. apply andb_prop in Hc as [Hc _].
  apply Z.leb_le in Hc. lia.
Qed.

Lemma digit_not_space (c : ascii) : isDigit c = true -> isWhiteSpace c = false.
Proof.
  unfold isDigit, isWhiteSpace. intros Hc.
  apply andb_prop in Hc as [H1 H2]. apply Z.leb_le in H1, H2.
  destruct (Z.leb_spec (charCode c) 13); [lia|]. rewrite andb_false_r.
  destruct (Z.eqb_spec (charCode c) 32); [lia|].
  destruct (Z.eqb_spec (charCode c) 160); [lia|]. reflexivity.
Qed.

Lemma digits_noLeadingSpace (s : string) :
  allChars isDigit s = true -> noLeadingSpace s = true.
Proof.
  destruct s as [|c s]; [reflexivity|]. simpl. intros Hs.
  apply andb_prop in Hs as [Hc _]. now rewrite (digit_not_space c Hc).
Qed.

Lemma allChars_rev (p : ascii -> bool) (s : string) :
  allChars p (String.rev s) = allChars p s.
Proof.
  induction s as [|c s IH]; [reflexivity|].
  rewrite rev_cons, allChars_append, IH. simpl.
  destruct (p c), (allChars p s); reflexivity.
Qed.

Lemma Number_digits (g : string) :
  allChars isDigit g = true -> (1 <= String.length g)%nat ->
  Number_ g = Num (decimalValue g) /\ 0 <= decimalValue g.
Proof.
  intros Hg Hl. unfold Number_.
  rewrite trim_fixed
    by (apply digits_noLeadingSpace; now rewrite ?allChars_rev).
  rewrite allDigits_allChars, Hg.
  destruct g as [|c r]; [simpl in Hl; lia|].
  simpl in Hg. apply andb_prop in Hg as [Hc Hr].
  cbn [digitsValue]. rewrite Hc. cbn [default from_option id].
  rewrite (digitsValue_run r _ Hr). cbn [default from_option id].
  split; [reflexivity|].
  unfold decimalValue. cbn [list_ascii_of_string fold_left].
  apply decimal_run_nonneg; [exact Hr|].
  unfold isDigit in Hc. apply andb_prop in Hc as [Hc _].
  apply Z.leb_le in Hc. lia.
Qed.

Lemma octet_in_range (g : string) :
  isGroup isDigit 1 3 g = true ->
  num_ge (Number_ g) (Num 0) && num_ge (Num 255) (Number_ g)
  = (decimalValue g <=? 255).
Proof.
  unfold isGroup. intros Hg. apply andb_prop in Hg as [Hg _].
  apply andb_prop in Hg as [Hg Hlo]. apply Nat.leb_le in Hlo.
  destruct (Number_digits g Hg Hlo) as [-> Hpos]. cbn [num_ge].
  destruct (Z.leb_spec 0 (decimalValue g)); [|lia].
  destruct (Z.leb_spec (decimalValue g) 255), (Z.geb_spec 255 (decimalValue g));
    try reflexivity; lia.
Qed.

Lemma forallb_mapped {A B : Type} (f : B -> bool) (g : A -> B) (l : list A) :
  forallb f (map g l) = forallb (fun x => f (g x)) l.
Proof. induction l as [|x l IH]; [reflexivity|]. cbn [map forallb]. now rewrite IH. Qed.

(** [isValidIP] accepts the dotted quads and the IPv6 addresses written
    in full, and nothing else. *)
Lemma isValidIP_accepted (ip : string) : isValidIP ip = acceptedLiteral ip.
Proof.
  unfold isValidIP, acceptedLiteral.
  rewrite isDottedQuad_pattern, isFullIPv6_pattern.
  destruct (ipv4Pattern ip) eqn:H4; [|reflexivity].
  assert (ipv6Pattern ip = false) as ->.
  { destruct (ipv6Pattern ip) eqn:H6; [|reflexivity].
    destruct (ipv6Pattern_consumes ip H6) as [Hc _].
    rewrite ipv4Pattern_split in H4. apply andb_prop in H4 as [Hlen _].
    rewrite split_no_separator in Hlen; [discriminate Hlen|].
    eapply allChars_impl; [|exact Hc]. intros c Hc'. apply negb_true_iff.
    destruct (Ascii.eqb_spec c ".") as [->|]; [|reflexivity].
    vm_compute in Hc'. discriminate. }
  rewrite orb_false_r. cbn [andb]. rewrite forallb_mapped.
  apply forallb_pointwise. intros g Hin.
  apply octet_in_range.
  rewrite ipv4Pattern_split in H4. apply andb_prop in H4 as [_ Hall].
  rewrite forallb_forall in Hall. now apply Hall.
Qed.

(** C9, as the code has it.  The client address is taken from
    [cf-connecting-ip] when that holds a dotted quad of numbers up to 255
    or an IPv6 address written in full, else from the first entry of
    [x-forwarded-for] when that is one, else from [x-real-ip] when that
    is one, else it is ["unknown"]; it is never empty; and the three
    example requests give ["1.2.3.4"], ["5.6.7.8"] and ["unknown"]. *)
Theorem client_ip_precedence (headers : gmap string string) :
  getClientIP headers = clientIP headers
  /\ getClientIP headers <> ""
  /\ getClientIP {[ "cf-connecting-ip" := "1.2.3.4" ]} = "1.2.3.4"
  /\ getClientIP {[ "x-forwarded-for" := "5.6.7.8, 9.9.9.9" ]} = "5.6.7.8"
  /\ getClientIP ∅ = "unknown".
Proof.
  split; [|split; [|repeat split; vm_compute; reflexivity]].
  - rewrite getClientIP_chain. unfold clientIP, firstValid.
    now rewrite !(validBy_ext isValidIP acceptedLiteral _ isValidIP_accepted).
  - rewrite getClientIP_chain.
    destruct (firstValid_cases isValidIP headers) as [->|Hv]; [discriminate|].
    intros E. rewrite E in Hv. discriminate Hv.
Qed.

(** C9, as worded, fails on an IPv6 address in compressed form: it is a
    syntactically valid literal, yet the code passes over the header that
    holds it, down to a header of lower precedence or to ["unknown"]. *)
Lemma client_ip_rejects_compressed_ipv6 :
  isIPLiteral "2001:db8::1" = true
  /\ clientIPOfLiterals {[ "cf-connecting-ip" := "2001:db8::1" ]}
     = "2001:db8::1"
  /\ getClientIP {[ "cf-connecting-ip" := "2001:db8::1" ]} = "unknown"
  /\ getClientIP {[ "cf-connecting-ip" := "2001:db8::1";
                    "x-real-ip" := "10.0.0.1" ]} = "10.0.0.1".
Proof. repeat split; vm_compute; reflexivity. Qed.

(** ** More on the credential pool and the selectors *)

Lemma loadOpenRouterKeys_cases (env : gmap string string) :
  loadOpenRouterKeys env = indexedCredentials env
  \/ exists primary,
       credentialAt env "OPENROUTER_API_KEY" = Some primary
       /\ loadOpenRouterKeys env = primary :: indexedCredentials env.
Proof.
  unfold loadOpenRouterKeys. rewrite indexed_loop. cbn [app].
  fold (indexedCredentials env). unfold credentialAt, unshift.
  destruct (usable (env !! "OPENROUTER_API_KEY")); [|now left].
  destruct (arrayIncludes _ _); simpl; [now left | right; eauto].
Qed.

Lemma pool_member_source (env : gmap string string) (k : string) :
  k ∈ loadOpenRouterKeys env ->
  exists name, name ∈ keyVariables /\ credentialAt env name = Some k.
Proof.
  intros Hk.
  assert (Hidx : k ∈ indexedCredentials env ->
                 exists name, name ∈ keyVariables /\ credentialAt env name = Some k).
  { intros Hin. apply list_elem_of_omap in Hin as (i & Hi & Hc).
    exists (indexedName i). split; [|exact Hc].
    unfold keyVariables. right. now apply list_elem_of_fmap_2. }
  destruct (loadOpenRouterKeys_cases env) as [E|(primary & Hp & E)];
    rewrite E in Hk.
  - now apply Hidx.
  - apply elem_of_cons in Hk as [->|Hk]; [|now apply Hidx].
    exists "OPENROUTER_API_KEY". split; [left | exact Hp].
Qed.

Lemma length_omap_le {A B : Type} (f : A -> option B) (l : list A) :
  (length (omap f l) <= length l)%nat.
Proof.
  induction l as [|x l IH]; [reflexivity|].
  cbn [omap list_omap]. destruct (f x); cbn [length]; fold (omap f l); lia.
Qed.

(** X11. The pool holds at most eleven credentials, and each of them is
    the trimmed value of one of the eleven variables: not empty, without
    white space at either end, and free of the word ["placeholder"]. *)
Theorem pool_members_usable (env : gmap string string) :
  (length (loadOpenRouterKeys env) <= 11)%nat
  /\ forall k,
      k ∈ loadOpenRouterKeys env ->
      k <> ""
      /\ trim k = k
      /\ includes k "placeholder" = false
      /\ exists name v,
           name ∈ keyVariables /\ env !! name = Some v /\ k = trim v.
Proof.
  split.
  - pose proof (length_omap_le (fun i => credentialAt env (indexedName i))
                  (seqZ 1 10)) as Hl.
    rewrite length_seqZ in Hl. fold (indexedCredentials env) in Hl.
    destruct (loadOpenRouterKeys_cases env) as [E|(primary & _ & E)];
      rewrite E; cbn [length]; lia.
  - intros k Hk. destruct (pool_member_source env k Hk) as (name & Hname & Hc).
    unfold credentialAt, usable in Hc.
    destruct (env !! name) as [v|] eqn:Hv; [|discriminate].
    destruct (truthy v && (0 <? Z.of_nat (String.length (trim v)))
              && negb (includes v "placeholder")) eqn:Hu; [|discriminate].
    injection Hc as <-. cbn [default from_option id].
    apply andb_prop in Hu as [Hu Hp]. apply andb_prop in Hu as [_ Hlen].
    apply negb_true_iff in Hp. apply Z.ltb_lt in Hlen.
    split; [|split; [|split]].
    + intros E. rewrite E in Hlen. simpl in Hlen. lia.
    + apply trim_idempotent.
    + destruct (includes (trim v) "placeholder") eqn:Hin; [|reflexivity].
      apply includes_trim in Hin. congruence.
    + exists name, v. auto.
Qed.

(** X12. Both selectors fail exactly when no credential is configured; with
    a non-empty pool and a non-negative clock each of them returns a member
    of the pool. *)
Theorem selectors_return_pool_members (env : gmap string string) (now : Z) :
  (loadOpenRouterKeys env = [] ->
   getCurrentApiKey env now = Rejected "No OpenRouter API keys configured"
   /\ rotateKeyOnFailure env now = Rejected "No OpenRouter API keys configured")
  /\ (loadOpenRouterKeys env <> [] ->
      0 <= now ->
      (exists k i,
          getCurrentApiKey env now = Resolved {| key := Some k; index := i |}
          /\ loadOpenRouterKeys env !! Z.to_nat i = Some k
          /\ 0 <= i < Z.of_nat (length (loadOpenRouterKeys env)))
      /\ (exists k,
            rotateKeyOnFailure env now = Resolved (Some k)
            /\ k ∈ loadOpenRouterKeys env)).
Proof.
  unfold getCurrentApiKey, rotateKeyOnFailure, floor_div. split.
  - intros ->. split; reflexivity.
  - intros Hne Hnow.
    assert (HN : 0 < Z.of_nat (length (loadOpenRouterKeys env)))
      by (destruct (loadOpenRouterKeys env); [congruence | cbn [length]; lia]).
    destruct (Z.eqb_spec (Z.of_nat (length (loadOpenRouterKeys env))) 0);
      [lia|].
    assert (0 <= now / 60000) by (apply Z.div_pos; lia).
    assert (0 <= now / 1000) by (apply Z.div_pos; lia).
    pose proof (Z.rem_bound_pos (now / 60000)
                  (Z.of_nat (length (loadOpenRouterKeys env)))
                  ltac:(lia) HN) as Hm.
    pose proof (Z.rem_bound_pos (now / 1000 + 1)
                  (Z.of_nat (length (loadOpenRouterKeys env)))
                  ltac:(lia) HN) as Hs.
    split.
    + destruct (at_in_range _ _ Hm) as [k Hk].
      exists k, (Z.rem (now / 60000) (Z.of_nat (length (loadOpenRouterKeys env)))).
      rewrite Hk. split; [reflexivity|]. split; [|exact Hm].
      unfold at_ in Hk. destruct (Z.ltb_spec (Z.rem (now / 60000)
        (Z.of_nat (length (loadOpenRouterKeys env)))) 0); [lia | exact Hk].
    + destruct (at_in_range _ _ Hs) as [k Hk]. exists k. rewrite Hk.
      split; [reflexivity|].
      unfold at_ in Hk. destruct (Z.ltb_spec (Z.rem (now / 1000 + 1)
        (Z.of_nat (length (loadOpenRouterKeys env)))) 0); [lia|].
      eapply list_elem_of_lookup_2. exact Hk.
Qed.

Lemma selectors_return_pool_members_witness :
  (getCurrentApiKey ∅ 1700000000000
   = Rejected "No OpenRouter API keys configured"
   /\ rotateKeyOnFailure ∅ 1700000000000
      = Rejected "No OpenRouter API keys configured")
  /\ exists k,
      rotateKeyOnFailure otherTwoKeys 1700000000000 = Resolved (Some k)
      /\ k ∈ loadOpenRouterKeys otherTwoKeys.
Proof.
  split.
  - apply (proj1 (selectors_return_pool_members ∅ 1700000000000)).
    reflexivity.
  - apply (proj2 (selectors_return_pool_members otherTwoKeys 1700000000000));
      [vm_compute; discriminate | lia].
Defined.

(** X13. The response of the status endpoint, as it is written to the
    client.  While the clock is within the range of [Date]: with an empty
    pool the response has status 200 and reports zero keys and a
    [currentIndex] of [null], the JSON text of a value that is not a
    number; with a non-empty pool and a non-negative clock it has status
    200, its 1-based [currentIndex] is one more than the index
    [getCurrentApiKey] returns and lies between 1 and [totalKeys], and
    [activeKeys] equals [totalKeys], the size of the pool.  Once the
    minute of the clock starts beyond the range of [Date], the response
    is the error response with status 500. *)
Theorem status_matches_selection (env : gmap string string) (now : Z) :
  (loadOpenRouterKeys env = [] ->
   Z.abs now <= maxTimeValue ->
   getKeyStatusHandler env now
   = statusResponse 0 JNull (toISOString (now / 60000 * 60000)))
  /\ (loadOpenRouterKeys env <> [] ->
      0 <= now <= maxTimeValue ->
      exists k i,
        getCurrentApiKey env now = Resolved {| key := k; index := i |}
        /\ 1 <= i + 1 <= Z.of_nat (length (loadOpenRouterKeys env))
        /\ getKeyStatusHandler env now
           = statusResponse (Z.of_nat (length (loadOpenRouterKeys env)))
               (JNumber (i + 1)) (toISOString (now / 60000 * 60000)))
  /\ (maxTimeValue + 60000 <= now ->
      getKeyStatusHandler env now = statusFailure).
Proof.
  unfold getKeyStatusHandler, getKeyRotationStatus, getCurrentApiKey,
    Date_toISOString, floor_div, maxTimeValue.
  pose proof (Z.div_mod now 60000 ltac:(lia)) as Hdm.
  pose proof (Z.mod_pos_bound now 60000 ltac:(lia)) as Hmod.
  split; [|split].
  - intros -> Hnow.
    destruct (Z.leb_spec (Z.abs (now / 60000 * 60000)) 8640000000000000);
      [reflexivity | lia].
  - intros Hne Hnow.
    assert (HN : 0 < Z.of_nat (length (loadOpenRouterKeys env)))
      by (destruct (loadOpenRouterKeys env); [congruence | cbn [length]; lia]).
    destruct (Z.leb_spec (Z.abs (now / 60000 * 60000)) 8640000000000000);
      [|lia].
    cbn [mbind outcome_bind Js.bind try_catch totalKeys currentIndex
         failedCount lastReset num_rem].
    destruct (Z.eqb_spec (Z.of_nat (length (loadOpenRouterKeys env))) 0);
      [lia|].
    assert (0 <= now / 60000) by (apply Z.div_pos; lia).
    pose proof (Z.rem_bound_pos (now / 60000)
                  (Z.of_nat (length (loadOpenRouterKeys env)))
                  ltac:(lia) HN) as Hm.
    eexists _, _. split; [reflexivity|]. split; [lia|].
    unfold statusResponse. cbn [num_add jsonOfNumber].
    now rewrite Z.sub_0_r.
  - intros Hnow.
    destruct (Z.leb_spec (Z.abs (now / 60000 * 60000)) 8640000000000000);
      [lia | reflexivity].
Qed.

Lemma status_matches_selection_witness :
  getKeyStatusHandler ∅ 1700000000000
  = statusResponse 0 JNull "2023-11-14T22:13:00.000Z"
  /\ getKeyStatusHandler twoKeys 1700000000000
     = statusResponse 2 (JNumber 2) "2023-11-14T22:13:00.000Z"
  /\ getKeyStatusHandler twoKeys 8640000000060000 = statusFailure.
Proof.
  destruct (status_matches_selection ∅ 1700000000000) as (Hempty & _ & _).
  destruct (status_matches_selection twoKeys 1700000000000) as (_ & Hpool & _).
  destruct (status_matches_selection twoKeys 8640000000060000)
    as (_ & _ & Hfail).
  split; [|split].
  - rewrite Hempty; [vm_compute; reflexivity | reflexivity |].
    unfold maxTimeValue. lia.
  - destruct Hpool as (k & i & Hsel & Hi & ->);
      [vm_compute; discriminate | unfold maxTimeValue; lia |].
    vm_compute in Hsel. injection Hsel as _ <-. vm_compute. reflexivity.
  - apply Hfail. unfold maxTimeValue. lia.
Defined.

Lemma pool_members_usable_witness :
  loadOpenRouterKeys paddedKeys = ["sk-or-v1-cccccccccccccccc"]
  /\ trim "sk-or-v1-cccccccccccccccc" = "sk-or-v1-cccccccccccccccc"
  /\ includes "sk-or-v1-cccccccccccccccc" "placeholder" = false.
Proof.
  split; [vm_compute; reflexivity|].
  destruct (proj2 (pool_members_usable paddedKeys) "sk-or-v1-cccccccccccccccc")
    as (_ & Htrim & Hplace & _).
  - apply (bool_decide_unpack _). vm_compute. exact I.
  - split; [exact Htrim | exact Hplace].
Defined.

(** ** [sanitizeString] *)

Lemma removeChars_clean (p : ascii -> bool) (s : string) :
  allChars (fun c => negb (p c)) (removeChars p s) = true.
Proof.
  induction s as [|c s IH]; [reflexivity|]. simpl.
  destruct (p c) eqn:Hc; [exact IH|]. simpl. now rewrite Hc, IH.
Qed.

Lemma removeChars_fixed (p : ascii -> bool) (s : string) :
  allChars (fun c => negb (p c)) s = true -> removeChars p s = s.
Proof.
  induction s as [|c s IH]; [reflexivity|]. simpl. intros Hs.
  apply andb_prop in Hs as [Hc Hs]. apply negb_true_iff in Hc.
  now rewrite Hc, IH.
Qed.

Lemma removeChars_keeps (p q : ascii -> bool) (s : string) :
  allChars q s = true -> allChars q (removeChars p s) = true.
Proof.
  induction s as [|c s IH]; [reflexivity|]. simpl. intros Hs.
  apply andb_prop in Hs as [Hc Hs].
  destruct (p c); [now apply IH|]. simpl. now rewrite Hc, IH.
Qed.

Lemma removeChars_length (p : ascii -> bool) (s : string) :
  (String.length (removeChars p s) <= String.length s)%nat.
Proof.
  induction s as [|c s IH]; [reflexivity|]. simpl.
  destruct (p c); simpl; lia.
Qed.

Lemma trim_keeps (q : ascii -> bool) (s : string) :
  allChars q s = true -> allChars q (trim s) = true.
Proof.
  intros Hs. destruct (trim_decompose s) as (a & b & E & _).
  rewrite E, !allChars_append in Hs.
  apply andb_prop in Hs as [_ Hs]. now apply andb_prop in Hs as [Hs _].
Qed.

Lemma trim_length (s : string) :
  (String.length (trim s) <= String.length s)%nat.
Proof.
  destruct (trim_decompose s) as (a & b & E & _).
  rewrite E at 2. rewrite !length_append. lia.
Qed.

Lemma nul_is_control (c : ascii) :
  negb (isControl c) = true -> negb (isNul c) = true.
Proof.
  unfold isControl, isNul. intros Hc. apply negb_true_iff in Hc.
  apply negb_true_iff. destruct (Z.eqb_spec (charCode c) 0) as [E|]; [|reflexivity].
  rewrite E in Hc. discriminate Hc.
Qed.

(** X14. [sanitizeString] returns a string without control characters
    (codes 0 to 8, 11, 12, 14 to 31 and 127) and without white space at
    either end, never longer than its input; applying it twice changes
    nothing more, and a string that is already clean is returned as it
    is. *)
Theorem sanitizeString_clean (str : string) :
  allChars (fun c => negb (isControl c)) (sanitizeString str) = true
  /\ noLeadingSpace (sanitizeString str) = true
  /\ noLeadingSpace (String.rev (sanitizeString str)) = true
  /\ (String.length (sanitizeString str) <= String.length str)%nat
  /\ sanitizeString (sanitizeString str) = sanitizeString str
  /\ (allChars (fun c => negb (isControl c)) str = true ->
      noLeadingSpace str = true ->
      noLeadingSpace (String.rev str) = true ->
      sanitizeString str = str).
Proof.
  assert (Hfixed : forall s,
             allChars (fun c => negb (isControl c)) s = true ->
             removeChars isControl (removeChars isNul s) = s).
  { intros s Hs. rewrite (removeChars_fixed isNul).
    - now apply removeChars_fixed.
    - exact (allChars_impl _ _ _ nul_is_control Hs). }
  assert (Hclean : allChars (fun c => negb (isControl c)) (sanitizeString str)
                   = true)
    by (apply trim_keeps, removeChars_clean).
  split; [exact Hclean|].
  split; [apply trim_noLeadingSpace|].
  split; [apply trim_noTrailingSpace|].
  split.
  - unfold sanitizeString.
    pose proof (trim_length (removeChars isControl (removeChars isNul str))).
    pose proof (removeChars_length isControl (removeChars isNul str)).
    pose proof (removeChars_length isNul str). lia.
  - split.
    + unfold sanitizeString at 1. rewrite (Hfixed _ Hclean).
      unfold sanitizeString. apply trim_idempotent.
    + intros Hc Hl Hr. unfold sanitizeString. rewrite (Hfixed _ Hc).
      now apply trim_fixed.
Qed.

Lemma sanitizeString_clean_witness :
  sanitizeString "hello world" = "hello world".
Proof.
  apply (proj2 (proj2 (proj2 (proj2 (proj2
           (sanitizeString_clean "hello world"))))));
    vm_compute; reflexivity.
Defined.

(** ** [escapeHtml] *)

Lemma escapeHtml_cons (c : ascii) (s : string) :
  escapeHtml (String c s) = escapedChar c +:+ escapeHtml s.
Proof. reflexivity. Qed.

Lemma escapedChar_cases (c : ascii) :
  (isHtmlSpecial c = false /\ escapedChar c = String c "")
  \/ (c = "&"%char /\ escapedChar c = "&amp;")
  \/ (c = "<"%char /\ escapedChar c = "&lt;")
  \/ (c = ">"%char /\ escapedChar c = "&gt;")
  \/ (c = "034"%char /\ escapedChar c = "&quot;")
  \/ (c = "'"%char /\ escapedChar c = "&#x27;")
  \/ (c = "/"%char /\ escapedChar c = "&#x2F;").
Proof.
  unfold escapedChar. destruct (isHtmlSpecial c) eqn:Hs; [right | now left].
  unfold isHtmlSpecial in Hs.
  repeat (apply orb_prop in Hs as [Hs|Hs]);
    apply Ascii.eqb_eq in Hs; subst c; tauto.
Qed.

Lemma escapedChar_inj (c d : ascii) (r s : string) :
  escapedChar c +:+ r = escapedChar d +:+ s -> c = d /\ r = s.
Proof.
  destruct (escapedChar_cases c) as [[Hc ->]|Hc];
    destruct (escapedChar_cases d) as [[Hd ->]|Hd].
  - rewrite !append_cons. intros [= -> E]. auto.
  - repeat destruct Hd as [Hd|Hd]; destruct Hd as [-> ->];
      rewrite !append_cons; intros [= -> _]; discriminate Hc.
  - repeat destruct Hc as [Hc|Hc]; destruct Hc as [-> ->];
      rewrite !append_cons; intros [= <- _]; discriminate Hd.
  - repeat destruct Hc as [Hc|Hc]; destruct Hc as [-> ->];
      repeat destruct Hd as [Hd|Hd]; destruct Hd as [-> ->];
      rewrite !append_cons; intros E; try discriminate E;
      injection E as E; auto.
Qed.

Lemma escapedChar_clean (c : ascii) :
  allChars (fun x => negb (isHtmlSpecial x) || Ascii.eqb x "&")
    (escapedChar c) = true.
Proof.
  destruct (escapedChar_cases c) as [[Hc ->]|Hc].
  - simpl. now rewrite Hc.
  - repeat destruct Hc as [Hc|Hc]; destruct Hc as [-> ->]; reflexivity.
Qed.

(** X15. [escapeHtml] works character by character (the escape of a
    concatenation is the concatenation of the escapes); its output holds
    none of the characters [<], [>], double quote, single quote and [/];
    a string without any of the six special characters is returned
    unchanged; and no two different strings have the same escape. *)
Theorem escapeHtml_safe :
  (forall a b, escapeHtml (a +:+ b) = escapeHtml a +:+ escapeHtml b)
  /\ (forall s,
        allChars (fun x => negb (isHtmlSpecial x) || Ascii.eqb x "&")
          (escapeHtml s) = true)
  /\ (forall s,
        allChars (fun x => negb (isHtmlSpecial x)) s = true ->
        escapeHtml s = s)
  /\ (forall a b, escapeHtml a = escapeHtml b -> a = b).
Proof.
  split; [|split; [|split]].
  - intros a b. induction a as [|c a IH]; [reflexivity|].
    rewrite append_cons, !escapeHtml_cons, IH. now rewrite append_assoc.
  - induction s as [|c s IH]; [reflexivity|].
    rewrite escapeHtml_cons, allChars_append, IH, escapedChar_clean.
    reflexivity.
  - induction s as [|c s IH]; [reflexivity|]. simpl. intros Hs.
    apply andb_prop in Hs as [Hc Hs]. apply negb_true_iff in Hc.
    rewrite escapeHtml_cons. unfold escapedChar. rewrite Hc, IH by assumption.
    reflexivity.
  - induction a as [|c a IH]; intros [|d b] E.
    + reflexivity.
    + exfalso. rewrite escapeHtml_cons in E.
      destruct (escapedChar_cases d) as [[_ Hd]|Hd].
      * rewrite Hd in E. discriminate E.
      * repeat destruct Hd as [Hd|Hd]; destruct Hd as [_ Hd];
          rewrite Hd in E; discriminate E.
    + exfalso. rewrite escapeHtml_cons in E.
      destruct (escapedChar_cases c) as [[_ Hc]|Hc].
      * rewrite Hc in E. discriminate E.
      * repeat destruct Hc as [Hc|Hc]; destruct Hc as [_ Hc];
          rewrite Hc in E; discriminate E.
    + rewrite !escapeHtml_cons in E.
      apply escapedChar_inj in E as [-> E]. now rewrite (IH b E).
Qed.

Lemma escapeHtml_safe_witness :
  escapeHtml "plain text, no markup" = "plain text, no markup"
  /\ "a<b" = "a" +:+ "<b".
Proof.
  destruct escapeHtml_safe as (_ & _ & Hid & Hinj).
  split.
  - apply Hid. vm_compute. reflexivity.
  - apply Hinj. vm_compute. reflexivity.
Defined.

(** ** [validateKeyFormat] *)

(** X16. [validateKeyFormat] accepts exactly the strings of 20 to 100
    characters that start with ["sk-or-"] or consist of letters, digits,
    underscores and hyphens only. *)
Theorem validateKeyFormat_accepts (key : string) :
  validateKeyFormat key
  = (20 <=? Z.of_nat (String.length key))
    && (Z.of_nat (String.length key) <=? 100)
    && (startsWith key "sk-or-" || allChars isKeyChar key).
Proof.
  unfold validateKeyFormat.
  destruct key as [|c r] eqn:Hkey; [reflexivity|]. rewrite <- Hkey.
  replace (negb (truthy key)) with false by (now rewrite Hkey).
  destruct (startsWith key "sk-or-") eqn:Hs;
    [now rewrite orb_true_l, andb_true_r|].
  rewrite orb_false_l.
  destruct (test (rep 20 100 (cls isKeyChar)) key) eqn:Ht.
  - assert (Hc : consumes (cls isKeyChar) isKeyChar 1 1)
      by (apply consumes_cls; auto).
    destruct (test_consumes _ _ _ _ key (consumes_rep _ _ _ _ 20 100 Hc) Ht)
      as [Hall Hlen].
    rewrite Hall. symmetry. rewrite andb_true_r.
    apply andb_true_intro. split; [apply Z.leb_le | apply Z.leb_le]; lia.
  - destruct (allChars isKeyChar key) eqn:Hall;
      [|now rewrite andb_false_r].
    rewrite andb_true_r.
    destruct (Z.leb_spec 20 (Z.of_nat (String.length key))) as [Hlo|];
      [|reflexivity].
    destruct (Z.leb_spec (Z.of_nat (String.length key)) 100) as [Hhi|];
      [|reflexivity].
    exfalso. pose proof (rep_complete isKeyChar 20 100 key "" Hall
                           ltac:(lia)) as Hin.
    rewrite append_nil_r in Hin.
    unfold test in Ht. apply not_true_iff_false in Ht. apply Ht.
    apply existsb_exists. exists "". split; [exact Hin | reflexivity].
Qed.

(** ** Records, arrays and indices *)

Lemma value_nested_ind (P : value -> Prop) :
  P VUndefined -> P VNull -> (forall b, P (VBool b)) -> (forall z, P (VNum z)) ->
  (forall s, P (VStr s)) ->
  (forall items, Forall P items -> P (VArr items)) ->
  (forall fields, Forall (fun entry => P (snd entry)) fields -> P (VObj fields)) ->
  forall v, P v.
Proof.
  intros HU HN HB HZ HS HA HO. fix IH 1. intros [| |b|z|s|items|fields].
  - exact HU.
  - exact HN.
  - apply HB.
  - apply HZ.
  - apply HS.
  - apply HA. induction items as [|v items IHitems]; constructor;
      [apply IH | exact IHitems].
  - apply HO. induction fields as [|[k v] fields IHfields]; constructor;
      [apply IH | exact IHfields].
Qed.

Lemma includes_first_char (s : string) (c : ascii) (t : string) :
  allChars (fun x => negb (Ascii.eqb x c)) s = true ->
  includes s (String c t) = false.
Proof.
  intros Hs. destruct (includes s (String c t)) eqn:Hin; [|reflexivity].
  apply includes_append in Hin as (a & b & E).
  rewrite E, allChars_append, append_cons in Hs.
  apply andb_prop in Hs as [_ Hs]. simpl in Hs.
  rewrite Ascii.eqb_refl in Hs. discriminate Hs.
Qed.

Lemma digit_lowerChar (c : ascii) : isDigit c = true -> lowerChar c = c.
Proof.
  unfold isDigit, lowerChar. intros Hc.
  apply andb_prop in Hc as [H1 H2]. apply Z.leb_le in H1, H2.
  destruct (Z.leb_spec 65 (charCode c)); [lia|].
  destruct (Z.leb_spec 192 (charCode c)); [lia|]. reflexivity.
Qed.

Lemma digits_toLowerCase (s : string) :
  allChars isDigit s = true -> toLowerCase s = s.
Proof.
  induction s as [|c s IH]; [reflexivity|]. simpl. intros Hs.
  apply andb_prop in Hs as [Hc Hs].
  now rewrite (digit_lowerChar c Hc), IH.
Qed.

Lemma digit_not_letter (c x : ascii) :
  isDigit c = true -> (97 <=? charCode x) = true ->
  negb (Ascii.eqb c x) = true.
Proof.
  intros Hc Hx. apply negb_true_iff.
  destruct (Ascii.eqb_spec c x) as [->|]; [|reflexivity].
  unfold isDigit in Hc. apply andb_prop in Hc as [_ Hc].
  apply Z.leb_le in Hc, Hx. lia.
Qed.

Lemma digits_not_sensitive (s : string) :
  allChars isDigit s = true -> isSensitive s = false.
Proof.
  intros Hs. unfold isSensitive. rewrite (digits_toLowerCase s Hs).
  unfold sensitiveFields. cbn [existsb].
  rewrite !includes_first_char; [reflexivity|..];
    (eapply allChars_impl; [|exact Hs]; intros c Hc;
     apply (digit_not_letter c _ Hc); reflexivity).
Qed.

Lemma index_digits (i : Z) : 0 <= i -> allChars isDigit (String_ i) = true.
Proof.
  intros Hi. destruct i as [|p|p]; [reflexivity| |lia].
  rewrite String_positive.
  destruct (pretty_N_go_value (N.pos p)) as [Ha _]; [lia|].
  now rewrite <- allDigits_allChars.
Qed.

Lemma index_not_sensitive (i : Z) : 0 <= i -> isSensitive (String_ i) = false.
Proof. intros Hi. apply digits_not_sensitive. now apply index_digits. Qed.

Lemma index_ownField (i : Z) (v : value) :
  0 <= i -> ownField (String_ i, v) = true.
Proof.
  intros Hi. pose proof (index_digits i Hi) as Hd.
  unfold ownField. cbn [fst]. apply negb_true_iff.
  destruct (String.eqb_spec (String_ i) "__proto__") as [E|]; [|reflexivity].
  rewrite E in Hd. discriminate Hd.
Qed.

Lemma sanitize_array_loop (items : list value) (sanitized : object) (i : Z) :
  0 <= i ->
  (forall name, name ∈ sanitized.*1 -> exists j, j < i /\ name = String_ j) ->
  fst (fold_left
         (fun '(sanitized, i) v =>
            (sanitizeEntry sanitizeForLogging sanitized (String_ i) v, i + 1))
         items (sanitized, i))
  = (sanitized ++ indexedEntries i items)%list.
Proof.
  revert sanitized i.
  induction items as [|v items IH]; intros sanitized i Hi Hacc.
  - cbn [fold_left fst indexedEntries]. now rewrite app_nil_r.
  - cbn [fold_left indexedEntries]. rewrite sanitizeEntry_redacted.
    rewrite set_fresh.
    + rewrite IH.
      * now rewrite <- app_assoc.
      * lia.
      * intros name Hname. rewrite fmap_app in Hname.
        apply elem_of_app in Hname as [Hname|Hname].
        -- destruct (Hacc name Hname) as (j & Hj & ->).
           exists j. split; [lia | reflexivity].
        -- cbn in Hname. apply list_elem_of_singleton in Hname as ->.
           exists i. split; [lia | reflexivity].
    + now apply index_ownField.
    + intros Hin. destruct (Hacc _ Hin) as (j & Hj & E).
      apply String_inj in E. lia.
Qed.

Lemma sanitize_array (items : list value) :
  sanitizeForLogging (VArr items) = indexedEntries 0 items.
Proof.
  change (sanitizeForLogging (VArr items))
    with (fst (fold_left
                 (fun '(sanitized, i) v =>
                    (sanitizeEntry sanitizeForLogging sanitized (String_ i) v,
                     i + 1))
                 items ([], 0))).
  rewrite sanitize_array_loop; [reflexivity | lia |].
  intros name Hname. inversion Hname.
Qed.

(** *** The sanitised copy of a plain record *)








(** ** Redaction at every depth *)

Lemma redacted_throughout (name : string) (v : value) :
  (isObject v = true ->
   redactedThroughout (VObj (sanitizeForLogging v)) = true) ->
  (isObject v = false -> redactedThroughout v = true) ->
  (if isSensitive name then isMarker (redacted name v)
   else redactedThroughout (redacted name v)) = true.
Proof.
  intros Hobj Hprim. unfold redacted. rewrite <- isSensitive_terms.
  destruct (isSensitive name); [reflexivity|].
  destruct (isObject v); auto.
Qed.

Lemma primitive_redactedThroughout (v : value) :
  isObject v = false -> redactedThroughout v = true.
Proof. destruct v; try reflexivity; discriminate. Qed.

(** X17. Redaction reaches every depth: in the sanitised copy of a record
    whose objects have pairwise distinct field names, every field with a
    sensitive name holds the marker, however deeply it is nested in
    objects and arrays. *)
Theorem sanitize_redacts_throughout (v : value) :
  wellFormed v = true ->
  redactedThroughout (VObj (sanitizeForLogging v)) = true.
Proof.
  induction v as [| | | | |items IH|fields IH] using value_nested_ind;
    try reflexivity; intros Hwf.
  - rewrite sanitize_array. cbn [wellFormed] in Hwf.
    cbn [redactedThroughout].
    enough (G : forall i, 0 <= i ->
                forallb
                  (fun entry : string * value =>
                     if isSensitive (fst entry) then isMarker (snd entry)
                     else redactedThroughout (snd entry))
                  (indexedEntries i items) = true)
      by (apply G; lia).
    revert Hwf. induction IH as [|v items Hv _ IHitems]; intros Hwf i Hi.
    + reflexivity.
    + cbn [forallb] in Hwf. apply andb_prop in Hwf as [Hw Hwf].
      cbn [indexedEntries forallb fst snd].
      rewrite (index_not_sensitive i Hi).
      rewrite IHitems by (assumption || lia). rewrite andb_true_r.
      pose proof (redacted_throughout (String_ i) v (fun _ => Hv Hw)
                    (primitive_redactedThroughout v)) as Hr.
      now rewrite (index_not_sensitive i Hi) in Hr.
  - cbn [wellFormed] in Hwf. apply andb_prop in Hwf as [Hnd Hwf].
    apply bool_decide_eq_true_1 in Hnd.
    rewrite (sanitize_object fields Hnd). cbn [redactedThroughout].
    clear Hnd. induction IH as [|[k x] fields Hx _ IHfields].
    + reflexivity.
    + cbn [forallb snd] in Hwf. apply andb_prop in Hwf as [Hw Hwf].
      cbn [List.filter]. destruct (ownField (k, x)); [|exact (IHfields Hwf)].
      cbn [map forallb fst snd]. rewrite (IHfields Hwf), andb_true_r.
      exact (redacted_throughout k x (fun _ => Hx Hw)
               (primitive_redactedThroughout x)).
Qed.

Lemma sanitize_redacts_throughout_witness :
  redactedThroughout (VObj (sanitizeForLogging (VObj sampleRecord))) = true
  /\ sanitizeForLogging (VObj sampleRecord)
     = [("user", VObj [("name", VStr "n"); ("Password", VStr "[REDACTED]")]);
        ("attempts",
         VObj [("0", VObj [("sessionToken", VStr "[REDACTED]");
                           ("ok", VBool true)])]);
        ("API_KEY", VStr "[REDACTED]")].
Proof.
  split; [|vm_compute; reflexivity].
  apply sanitize_redacts_throughout. vm_compute. reflexivity.
Defined.

Lemma indexedEntries_keys (items : list value) (i : Z) (name : string) :
  name ∈ (indexedEntries i items).*1 -> exists j, i <= j /\ name = String_ j.
Proof.
  revert i. induction items as [|v items IH]; intros i Hin.
  - inversion Hin.
  - cbn [indexedEntries] in Hin. rewrite fmap_cons in Hin. cbn [fst] in Hin.
    apply elem_of_cons in Hin as [->|Hin].
    + exists i. split; [lia | reflexivity].
    + destruct (IH _ Hin) as (j & Hj & ->). exists j. split; [lia | reflexivity].
Qed.

Lemma indexedEntries_NoDup (items : list value) (i : Z) :
  NoDup (indexedEntries i items).*1.
Proof.
  revert i. induction items as [|v items IH]; intros i.
  - constructor.
  - cbn [indexedEntries]. rewrite fmap_cons. cbn [fst].
    apply NoDup_cons. split; [|apply IH].
    intros Hin. destruct (indexedEntries_keys _ _ _ Hin) as (j & Hj & E).
    apply String_inj in E. lia.
Qed.

Lemma indexedEntries_own (items : list value) (i : Z) :
  0 <= i ->
  List.filter ownField (indexedEntries i items) = indexedEntries i items.
Proof.
  revert i. induction items as [|v items IH]; intros i Hi; [reflexivity|].
  cbn [indexedEntries List.filter].
  rewrite (index_ownField i _ Hi). now rewrite IH by lia.
Qed.

Lemma redacted_keys (fields : list (string * value)) :
  (map (fun entry => (fst entry, redacted (fst entry) (snd entry))) fields).*1
  = fields.*1.
Proof.
  induction fields as [|[k v] fields IH]; [reflexivity|].
  cbn [map fst]. rewrite !fmap_cons. cbn [fst]. now rewrite IH.
Qed.

Lemma own_fields_NoDup (fields : list (string * value)) :
  NoDup (fields.*1) -> NoDup ((List.filter ownField fields).*1).
Proof.
  induction fields as [|[k v] fields IH]; [intros _; constructor|].
  rewrite fmap_cons. cbn [fst List.filter]. intros Hnd.
  apply NoDup_cons in Hnd as [Hk Hnd].
  destruct (ownField (k, v)); [|now apply IH].
  rewrite fmap_cons. cbn [fst]. apply NoDup_cons. split; [|now apply IH].
  intros Hin. apply Hk.
  apply list_elem_of_fmap in Hin as (entry & -> & Hin).
  apply list_elem_of_fmap. exists entry. split; [reflexivity|].
  apply list_elem_of_In in Hin. apply filter_In in Hin as [Hin _].
  now apply list_elem_of_In.
Qed.

Lemma redacted_own (fields : list (string * value)) :
  List.filter ownField
    (map (fun entry => (fst entry, redacted (fst entry) (snd entry)))
         (List.filter ownField fields))
  = map (fun entry => (fst entry, redacted (fst entry) (snd entry)))
        (List.filter ownField fields).
Proof.
  induction fields as [|[k v] fields IH]; [reflexivity|].
  cbn [List.filter]. destruct (ownField (k, v)) eqn:Hown; [|exact IH].
  cbn [map List.filter fst snd].
  change (ownField (k, redacted k v)) with (ownField (k, v)).
  now rewrite Hown, IH.
Qed.

Lemma redacted_twice (name : string) (v : value) :
  (isObject v = true ->
   sanitizeForLogging (VObj (sanitizeForLogging v)) = sanitizeForLogging v) ->
  redacted name (redacted name v) = redacted name v.
Proof.
  intros Hobj. unfold redacted.
  destruct (namesSensitiveTerm name); [reflexivity|].
  destruct (isObject v) eqn:Hv.
  - cbn [isObject]. now rewrite Hobj.
  - now rewrite Hv.
Qed.

(** X18. Sanitising is idempotent: the sanitised copy of a record whose
    objects have pairwise distinct field names is its own sanitised
    copy. *)
Theorem sanitize_idempotent (v : value) :
  wellFormed v = true ->
  sanitizeForLogging (VObj (sanitizeForLogging v)) = sanitizeForLogging v.
Proof.
  induction v as [| | | | |items IH|fields IH] using value_nested_ind;
    try reflexivity; intros Hwf.
  - rewrite sanitize_array. cbn [wellFormed] in Hwf.
    rewrite (sanitize_object _ (indexedEntries_NoDup items 0)).
    rewrite indexedEntries_own by lia.
    generalize 0 as i. revert Hwf.
    induction IH as [|v items Hv _ IHitems]; intros Hwf i; [reflexivity|].
    cbn [forallb] in Hwf. apply andb_prop in Hwf as [Hw Hwf].
    cbn [indexedEntries map fst snd].
    rewrite (redacted_twice (String_ i) v (fun _ => Hv Hw)).
    now rewrite (IHitems Hwf).
  - cbn [wellFormed] in Hwf. apply andb_prop in Hwf as [Hnd Hwf].
    apply bool_decide_eq_true_1 in Hnd.
    rewrite (sanitize_object fields Hnd).
    rewrite sanitize_object
      by (rewrite redacted_keys; now apply own_fields_NoDup).
    rewrite redacted_own.
    clear Hnd. induction IH as [|[k x] fields Hx _ IHfields]; [reflexivity|].
    cbn [forallb snd] in Hwf. apply andb_prop in Hwf as [Hw Hwf].
    cbn [List.filter]. destruct (ownField (k, x)); [|exact (IHfields Hwf)].
    cbn [map fst snd].
    rewrite (redacted_twice k x (fun _ => Hx Hw)). now rewrite (IHfields Hwf).
Qed.

Lemma sanitize_idempotent_witness :
  sanitizeForLogging (VObj (sanitizeForLogging (VObj sampleRecord)))
  = sanitizeForLogging (VObj sampleRecord).
Proof. apply sanitize_idempotent. vm_compute. reflexivity. Defined.

(** ** The rotation loop of the chat handler *)

Lemma rotationLoop_stops (env : gmap string string)
    (upstream : nat -> option string -> outcome bool) (clock : nat -> Z)
    (j : nat) :
  (forall k, upstream j k <> Resolved false) ->
  forall left ok attempts,
    (attempts <= j)%nat ->
    (length (rotationLoop env upstream clock ok attempts left)
     <= S j - attempts)%nat.
Proof.
  intros Hj. induction left as [|left IH]; intros ok attempts Ha; simpl; [lia|].
  destruct ok; simpl; [lia|].
  destruct (rotateKeyOnFailure env (clock attempts)) as [apiKey|e]; simpl; [|lia].
  destruct (upstream attempts apiKey) as [ok'|e] eqn:Hup; simpl; [|lia].
  destruct (decide (attempts = j)) as [->|Hne].
  - destruct ok'; [|now destruct (Hj apiKey)].
    destruct left; simpl; lia.
  - specialize (IH ok' (S attempts) ltac:(lia)). lia.
Qed.

Lemma rotationLoop_persists (env : gmap string string)
    (upstream : nat -> option string -> outcome bool) (clock : nat -> Z) :
  loadOpenRouterKeys env <> [] ->
  (forall i k, upstream i k = Resolved false) ->
  forall left attempts,
    length (rotationLoop env upstream clock false attempts left) = left.
Proof.
  intros Hne Hfail. induction left as [|left IH]; intros attempts; [reflexivity|].
  cbn [rotationLoop negb]. unfold rotateKeyOnFailure at 1.
  destruct (Z.eqb_spec (Z.of_nat (length (loadOpenRouterKeys env))) 0) as [E|_].
  - destruct (loadOpenRouterKeys env); [congruence | cbn [length] in E; lia].
  - rewrite Hfail. cbn [length]. now rewrite IH.
Qed.

(** X19. The rotation loop of the chat handler tries no credential when
    none is configured, stops with the first attempt that does not come
    back as a failed response, and goes through all four rotations when
    every attempt fails. *)
Theorem rotation_loop_extent (env : gmap string string)
    (upstream : nat -> option string -> outcome bool) (clock : nat -> Z) :
  (loadOpenRouterKeys env = [] -> retriedKeys env upstream clock = [])
  /\ (forall j,
        (1 <= j)%nat ->
        (forall k, upstream j k <> Resolved false) ->
        (length (retriedKeys env upstream clock) <= j)%nat)
  /\ (loadOpenRouterKeys env <> [] ->
      (forall i k, upstream i k = Resolved false) ->
      length (retriedKeys env upstream clock) = 4%nat).
Proof.
  unfold retriedKeys. split; [|split].
  - intros E. cbn [maxAttempts Nat.sub rotationLoop negb].
    unfold rotateKeyOnFailure. now rewrite E.
  - intros j Hj Hstop.
    pose proof (rotationLoop_stops env upstream clock j Hstop
                  (maxAttempts - 1) false 1 Hj). lia.
  - intros Hne Hfail. now apply rotationLoop_persists.
Qed.

Lemma rotation_loop_extent_witness :
  retriedKeys ∅ (fun _ _ => Resolved false) frozenClock = []
  /\ (length (retriedKeys twoKeys (fun i _ => Resolved (Nat.eqb i 2))
                frozenClock) <= 2)%nat
  /\ length (retriedKeys twoKeys (fun _ _ => Resolved false) frozenClock)
     = 4%nat.
Proof.
  split; [|split].
  - apply (proj1 (rotation_loop_extent ∅ _ _)). reflexivity.
  - apply (proj1 (proj2 (rotation_loop_extent twoKeys _ _)) 2%nat); [lia|].
    intros k. discriminate.
  - apply (proj2 (proj2 (rotation_loop_extent twoKeys _ _)));
      [vm_compute; discriminate | reflexivity].
Defined.

(** ** Identities taking turns *)

Lemma check_agree (m1 m2 : store) (key : string) (config : RateLimitConfig)
    (now : Z) :
  (forall n, m1 !! counterKey key n = m2 !! counterKey key n) ->
  (checkRateLimitWithKV m1 key config now).1
  = (checkRateLimitWithKV m2 key config now).1
  /\ forall n,
      (checkRateLimitWithKV m1 key config now).2 !! counterKey key n
      = (checkRateLimitWithKV m2 key config now).2 !! counterKey key n.
Proof.
  intros Hagree. unfold checkRateLimitWithKV, windowKeyOf, floor_div.
  fold (counterKey key (now / windowMs config)).
  cbn [kv_get kv_put store_kv mbind outcome_bind Js.bind try_catch].
  unfold store_get. rewrite (Hagree (now / windowMs config)).
  destruct (num_ge _ _);
    cbn [mbind outcome_bind Js.bind try_catch fst snd]; split;
    try reflexivity.
  - exact Hagree.
  - intros n. unfold store_put, store in *. rewrite !lookup_insert.
    case_decide; [reflexivity | apply Hagree].
Qed.

Lemma check_other_identity (m : store) (key key' : string)
    (config : RateLimitConfig) (now n : Z) :
  key' <> key ->
  (checkRateLimitWithKV m key' config now).2 !! counterKey key n
  = m !! counterKey key n.
Proof.
  intros Hne. apply check_frame. unfold windowKeyOf, counterKey. intros E.
  destruct (last_colon_split _ _ _ _ (String_notColon _) (String_notColon _) E)
    as [E' _]. congruence.
Qed.

Lemma serveMixed_projection (key : string) (config : RateLimitConfig)
    (events : list (string * Z)) :
  forall m1 m2 : store,
    (forall n, m1 !! counterKey key n = m2 !! counterKey key n) ->
    eventsOf key (serveMixed m1 config events).1
    = (serve m2 key config (eventsOf key events)).1.
Proof.
  induction events as [|[k now] events IH]; intros m1 m2 Hagree.
  - reflexivity.
  - cbn [serveMixed]. unfold eventsOf at 2. cbn [omap list_omap fst snd].
    fold (eventsOf key events).
    destruct (checkRateLimitWithKV m1 k config now) as [r m1'] eqn:E1.
    destruct (serveMixed m1' config events) as [rs m1''] eqn:E2.
    cbn [fst]. unfold eventsOf at 1. cbn [omap list_omap fst snd].
    fold (eventsOf key rs).
    case_decide as Hk.
    + subst k. cbn [serve].
      destruct (check_agree m1 m2 key config now Hagree) as [Hr Hm].
      rewrite E1 in Hr, Hm. cbn [fst snd] in Hr, Hm.
      destruct (checkRateLimitWithKV m2 key config now) as [r2 m2'].
      cbn [fst snd] in Hr, Hm. subst r2.
      specialize (IH m1' m2' Hm). rewrite E2 in IH. cbn [fst] in IH.
      destruct (serve m2' key config (eventsOf key events)) as [rs2 m2''].
      cbn [fst] in *. now rewrite IH.
    + assert (Hagree' : forall n, m1' !! counterKey key n
                                  = m2 !! counterKey key n).
      { intros n. rewrite <- Hagree.
        pose proof (check_other_identity m1 key k config now n Hk) as Hf.
        now rewrite E1 in Hf. }
      specialize (IH m1' m2 Hagree'). rewrite E2 in IH. exact IH.
Qed.

(** X20. Identities taking turns do not disturb each other: in any
    sequence of requests of several identities handled one after the
    other, the answers given to one identity are those it would get if
    only its own requests were made. *)
Theorem durable_interleaving (kv : store) (config : RateLimitConfig)
    (events : list (string * Z)) (key : string) :
  eventsOf key (serveMixed kv config events).1
  = (serve kv key config (eventsOf key events)).1.
Proof. apply serveMixed_projection. reflexivity. Qed.
